(** * String Analyzer service (main.go): a shallow embedding and its properties

    The service analyses submitted strings, keeps the analysed records in a
    map keyed by the SHA-256 of the value, and answers structured and
    natural-language filter queries over that map.

    Conventions of the embedding.
    - A Go [string] is the list of code points that [range s] and [[]rune(s)]
      produce for it (values reach the handlers through the JSON decoder and
      the URL query decoder, which hand over text).  [len([]rune(s))] is the
      length of the list and [string(r)] is the one-element list.
    - A Go [int] is a 64-bit integer: a [Z] with the wrap-around written out
      where the code computes with it.
    - [interface{}] values are a tagged union over the dynamic types the
      program stores or tests; [nil] is [None].
    - The map [store.m] is a [gmap]; the critical sections delimited by the
      [sync.RWMutex] are the atomic steps of the server.
    - What the program links against but the repository does not contain
      (Unicode case tables, SHA-256, float conversions) is a field of the
      class [Runtime]. *)

From Equations Require Import Equations.
From stdpp Require Import gmap strings list fin_maps.
From Stdlib Require Import ZArith Lia.

Local Open Scope Z_scope.

Abbreviation rune := Z (only parsing).
Abbreviation gostring := (list Z) (only parsing).

(** ** Library parameters *)

Class Runtime := {
  (** [unicode.To(unicode.LowerCase, r)], consulted by [unicode.ToLower]
      for runes above ASCII. *)
  To_LowerCase : rune → rune;
  (** Outcome of the [unicode.SimpleFold] orbit walk of [strings.EqualFold]
      for a pair [sr < tr] with [tr] above ASCII. *)
  SimpleFold_reaches : rune → rune → bool;
  (** [sha256.Sum256([]byte(s))]: the 32 bytes of the digest. *)
  sha256_Sum256 : gostring → list Z;
  (** [int(f)] for a float64 given by its bit pattern. *)
  float64_to_int : Z → Z;
  (** [fmt.Sprintf("%v", f)] for a float64 given by its bit pattern. *)
  float64_format : Z → gostring;
}.

(** ** Text literals and machine integers *)

(** The code points of an ASCII literal of the source. *)
Definition str (s : string) : gostring :=
  (λ a, Z.of_N (Ascii.N_of_ascii a)) <$> String.list_ascii_of_string s.
Arguments str _%_string.

Definition max_int : Z := 9223372036854775807.
Definition min_int : Z := -9223372036854775808.

(** Two's-complement wrap-around of 64-bit [int] arithmetic. *)
Definition wrap (z : Z) : Z := (z + 2 ^ 63) `mod` 2 ^ 64 - 2 ^ 63.

(** ** package unicode *)

Definition MaxASCII : rune := 127.
Definition MaxLatin1 : rune := 255.

(** [unicode.IsSpace]: the Latin-1 cases are written out in the library; the
    others are the ranges of the [White_Space] table above Latin-1. *)
Definition unicode_IsSpace (r : rune) : bool :=
  if bool_decide (0 ≤ r ≤ MaxLatin1) then
    bool_decide (r ∈ [9; 10; 11; 12; 13; 32; 133; 160])
  else
    bool_decide (r = 5760) || bool_decide (8192 ≤ r ≤ 8202)
    || bool_decide (r = 8232) || bool_decide (r = 8233)
    || bool_decide (r = 8239) || bool_decide (r = 8287)
    || bool_decide (r = 12288).

(** [unicode.ToLower]: ASCII is handled in place, the rest by the tables. *)
Definition unicode_ToLower `{Runtime} (r : rune) : rune :=
  if bool_decide (r ≤ MaxASCII) then
    if bool_decide (65 ≤ r ≤ 90) then r + (97 - 65) else r
  else To_LowerCase r.

(** ** package strings *)

(** [strings.Map]: a negative result drops the character. *)
Definition strings_Map (mapping : rune → rune) (s : gostring) : gostring :=
  filter (λ r, 0 ≤ r) (mapping <$> s).

(** [strings.ToLower(s)] is [Map(unicode.ToLower, s)] (the ASCII fast path
    of the library computes the same string). *)
Definition strings_ToLower `{Runtime} (s : gostring) : gostring :=
  strings_Map unicode_ToLower s.

Fixpoint TrimLeftFunc (f : rune → bool) (s : gostring) : gostring :=
  match s with
  | c :: s' => if f c then TrimLeftFunc f s' else s
  | [] => []
  end.

Definition TrimRightFunc (f : rune → bool) (s : gostring) : gostring :=
  reverse (TrimLeftFunc f (reverse s)).

(** [strings.TrimSpace]: leading and trailing Unicode white space removed. *)
Definition strings_TrimSpace (s : gostring) : gostring :=
  TrimRightFunc unicode_IsSpace (TrimLeftFunc unicode_IsSpace s).

(** [s] without the prefix [l], when it starts with it. *)
Fixpoint strip_prefix (l s : gostring) : option gostring :=
  match l, s with
  | [], _ => Some s
  | a :: l', b :: s' => if bool_decide (a = b) then strip_prefix l' s' else None
  | _ :: _, [] => None
  end.

(** [strings.Contains(s, substr)]. *)
Fixpoint strings_Contains (s substr : gostring) : bool :=
  match strip_prefix substr s with
  | Some _ => true
  | None => match s with
            | [] => false
            | _ :: s' => strings_Contains s' substr
            end
  end.

(** One step of [strings.EqualFold] on a pair of runes. *)
Definition rune_EqualFold `{Runtime} (sr tr : rune) : bool :=
  if bool_decide (tr = sr) then true
  else
    let lo := Z.min sr tr in
    let hi := Z.max sr tr in
    if bool_decide (hi < 128) then
      bool_decide (65 ≤ lo ≤ 90) && bool_decide (hi = lo + 97 - 65)
    else SimpleFold_reaches lo hi.

(** [strings.EqualFold]: equal rune by rune under simple case folding, and
    of the same length. *)
Fixpoint strings_EqualFold `{Runtime} (s t : gostring) : bool :=
  match s, t with
  | [], [] => true
  | sr :: s', tr :: t' => rune_EqualFold sr tr && strings_EqualFold s' t'
  | _, _ => false
  end.

(** ** package strconv *)

(** Value of a run of decimal digits read left to right from [acc];
    [None] when a character is not a digit. *)
Fixpoint digits_value (acc : Z) (ds : gostring) : option Z :=
  match ds with
  | [] => Some acc
  | c :: ds' =>
      if bool_decide (48 ≤ c ≤ 57) then digits_value (acc * 10 + (c - 48)) ds'
      else None
  end.

(** [strconv.Atoi]: an optional sign and at least one decimal digit; the
    value has to fit an [int].  [None] stands for [err != nil]. *)
Definition Atoi (s : gostring) : option Z :=
  match s with
  | [] => None
  | c :: t =>
      let neg := bool_decide (c = 45) in
      let ds := if bool_decide (c = 45) || bool_decide (c = 43) then t else s in
      match ds with
      | [] => None
      | _ :: _ =>
          match digits_value 0 ds with
          | None => None
          | Some n =>
              let v := if neg then - n else n in
              if bool_decide (min_int ≤ v ≤ max_int) then Some v else None
          end
      end
  end.

(** Decimal digits of a non-negative number, most significant first. *)
Fixpoint digits_of (fuel : nat) (n : Z) (acc : gostring) : gostring :=
  match fuel with
  | O => acc
  | S fuel' =>
      let acc' := (48 + n `mod` 10) :: acc in
      if bool_decide (n < 10) then acc' else digits_of fuel' (n `div` 10) acc'
  end.

(** [strconv.Itoa] on an [int] (at most 19 digits). *)
Definition Itoa (n : Z) : gostring :=
  if bool_decide (n < 0) then 45 :: digits_of 20 (- n) [] else digits_of 20 n [].

(** ** package regexp

    The fragment of the RE2 syntax that the five patterns of the program
    use, with the leftmost-first semantics of the package: the match is the
    one a backtracking search finds first. *)

Inductive regex :=
| RLit (l : gostring)              (* literal text *)
| RClass (p : rune → bool)         (* one character of a class *)
| RPlus (p : rune → bool)          (* [c+] for a class [c], greedy *)
| RWordBoundary                    (* [\b] *)
| RCat (r1 r2 : regex)
| RAlt (r1 r2 : regex)
| RGroup (n : nat) (r : regex).    (* the n-th capturing group *)

(** Perl classes of RE2: ASCII only. *)
Definition class_s (r : rune) : bool := bool_decide (r ∈ [9; 10; 12; 13; 32]).
Definition class_d (r : rune) : bool := bool_decide (48 ≤ r ≤ 57).
Definition class_w (r : rune) : bool :=
  bool_decide (48 ≤ r ≤ 57) || bool_decide (65 ≤ r ≤ 90)
  || bool_decide (97 ≤ r ≤ 122) || bool_decide (r = 95).
(** [[a-zA-Z]] *)
Definition class_alpha (r : rune) : bool :=
  bool_decide (97 ≤ r ≤ 122) || bool_decide (65 ≤ r ≤ 90).

Abbreviation captures := (gmap nat (list Z)) (only parsing).

(** A position of the search: the character before it (for [\b]) and the
    text from it on.  A continuation receives the position reached and the
    groups captured so far. *)
Abbreviation cont :=
  (option Z → list Z → gmap nat (list Z) → option (list Z * gmap nat (list Z)))
  (only parsing).

(** The text between position [s] and the later position [s']. *)
Definition consumed (s s' : gostring) : gostring :=
  take (length s - length s') s.

Definition is_word (o : option rune) : bool :=
  match o with Some c => class_w c | None => false end.

(** [c+] after its first character: as many more as possible, giving one
    back at a time while the rest of the pattern fails. *)
Fixpoint plus_rest (p : rune → bool) (prev : option rune) (s : gostring)
    (cs : captures) (k : cont) : option (gostring * captures) :=
  match s with
  | c :: s' =>
      if p c then
        match plus_rest p (Some c) s' cs k with
        | Some r => Some r
        | None => k prev s cs
        end
      else k prev s cs
  | [] => k prev s cs
  end.

Fixpoint rmatch (r : regex) (prev : option rune) (s : gostring)
    (cs : captures) (k : cont) : option (gostring * captures) :=
  match r with
  | RLit l =>
      match strip_prefix l s with
      | Some s' => k (from_option Some prev (last l)) s' cs
      | None => None
      end
  | RClass p =>
      match s with
      | c :: s' => if p c then k (Some c) s' cs else None
      | [] => None
      end
  | RPlus p =>
      match s with
      | c :: s' => if p c then plus_rest p (Some c) s' cs k else None
      | [] => None
      end
  | RWordBoundary =>
      if xorb (is_word prev) (is_word (head s)) then k prev s cs else None
  | RCat r1 r2 =>
      rmatch r1 prev s cs (λ prev' s' cs', rmatch r2 prev' s' cs' k)
  | RAlt r1 r2 =>
      match rmatch r1 prev s cs k with
      | Some res => Some res
      | None => rmatch r2 prev s cs k
      end
  | RGroup n r1 =>
      rmatch r1 prev s cs (λ prev' s' cs', k prev' s' (<[n := consumed s s']> cs'))
  end.

(** The pattern matched at exactly this position. *)
Definition match_here (r : regex) (prev : option rune) (s : gostring)
    : option (gostring * captures) :=
  rmatch r prev s ∅ (λ _ s' cs, Some (s', cs)).

(** Leftmost match at or after position [pos] (the text from [pos] on is
    [s]): its bounds and its groups. *)
Fixpoint find_from (r : regex) (prev : option rune) (s : gostring) (pos : nat)
    : option (nat * nat * captures) :=
  match match_here r prev s with
  | Some (s', cs) => Some (pos, (pos + (length s - length s'))%nat, cs)
  | None =>
      match s with
      | [] => None
      | c :: s' => find_from r (Some c) s' (S pos)
      end
  end.

Definition doExecute (r : regex) (s : gostring) (pos : nat)
    : option (nat * nat * captures) :=
  find_from r (last (take pos s)) (drop pos s) pos.

(** [Regexp.NumSubexp]. *)
Fixpoint NumSubexp (r : regex) : nat :=
  match r with
  | RCat r1 r2 | RAlt r1 r2 => (NumSubexp r1 + NumSubexp r2)%nat
  | RGroup _ r1 => S (NumSubexp r1)
  | _ => O
  end.

(** [Regexp.FindStringSubmatch]: [nil] without a match; otherwise the text
    of the match followed by the text of every group, empty for a group that
    took no part. *)
Definition FindStringSubmatch (r : regex) (s : gostring) : list gostring :=
  match doExecute r s 0 with
  | None => []
  | Some (m0, m1, cs) =>
      take (m1 - m0) (drop m0 s)
      :: ((λ i, default [] (cs !! i)) <$> seq 1 (NumSubexp r))
  end.

(** The loop of [Regexp.allMatches]: successive matches, an empty match
    right after the previous match being skipped.  A match never ends
    before [pos], so [pos < m1] is the library's test [matches[1] != pos]. *)
Equations? allMatches (r : regex) (s : gostring) (pos : nat)
    (prevMatchEnd : option nat) : list (nat * nat)
    by wf (S (length s) - pos)%nat lt :=
  allMatches r s pos prevMatchEnd with decide (pos ≤ length s)%nat := {
    | right _ => []
    | left _ with doExecute r s pos := {
        | None => []
        | Some (m0, m1, _) with decide (pos < m1)%nat := {
            | left _ => (m0, m1) :: allMatches r s m1 (Some m1)
            | right _ =>
                (if bool_decide (Some m0 = prevMatchEnd) then [] else [(m0, m1)])
                ++ allMatches r s (S pos) (Some m1) } } }.
Proof. all: lia. Qed.

(** The loop of [Regexp.Split(s, -1)] over the matches. *)
Fixpoint split_loop (s : gostring) (matches : list (nat * nat)) (beg end_ : nat)
    : list gostring * nat * nat :=
  match matches with
  | [] => ([], beg, end_)
  | (m0, m1) :: rest =>
      let '(strings, beg', end') := split_loop s rest m1 m0 in
      ((if bool_decide (m1 ≠ 0%nat) then [take (m0 - beg) (drop beg s)] else [])
         ++ strings, beg', end')
  end.

(** [Regexp.Split(s, -1)]. *)
Definition Split (r : regex) (s : gostring) : list gostring :=
  if bool_decide (s = []) then [[]]
  else
    let '(strings, beg, end_) := split_loop s (allMatches r s 0 None) 0 0 in
    if bool_decide (end_ ≠ length s) then strings ++ [drop beg s] else strings.

(** ** The analyzer (main.go, lines 18-90) *)

Record Properties := {
  Length : Z;
  IsPalindrome : bool;
  UniqueCharacters : Z;
  WordCount : Z;
  SHA256Hash : gostring;
  CharacterFrequencyMap : gmap (list Z) Z;
}.

Record StoredString := {
  ID : gostring;
  Value : gostring;
  Props : Properties;
  CreatedAt : gostring;
}.

(** [hex.EncodeToString]. *)
Definition hex_digit (n : Z) : rune := if bool_decide (n < 10) then 48 + n else 87 + n.
Definition hex_EncodeToString (bs : list Z) : gostring :=
  bs ≫= (λ b, [hex_digit (b `div` 16); hex_digit (b `mod` 16)]).

Definition computeHash `{Runtime} (s : gostring) : gostring :=
  let h := sha256_Sum256 s in
  hex_EncodeToString h.

(** [m[k]++] on a [map[string]int]: a missing key reads as 0. *)
Definition map_incr (m : gmap (list Z) Z) (k : gostring) : gmap (list Z) Z :=
  <[k := wrap (default 0 (m !! k) + 1)]> m.

Definition charFreqMap (s : gostring) : gmap (list Z) Z :=
  foldl (λ m r, map_incr m [r]) ∅ s.

(** [rs[i]]; [None] is the run-time panic of an index out of range. *)
Definition index (rs : list Z) (i : Z) : option Z :=
  if bool_decide (0 ≤ i) then rs !! Z.to_nat i else None.

(** The loop of [isPalindrome]. *)
Equations? pal_loop (rs : list Z) (i j : Z) : option bool
    by wf (Z.to_nat (j - i)) lt :=
  pal_loop rs i j with decide (i < j) := {
    | left _ with index rs i, index rs j := {
        | Some a, Some b =>
            if bool_decide (a ≠ b) then Some false
            else pal_loop rs (i + 1) (j - 1)
        | _, _ => None }
    | right _ => Some true }.
Proof. lia. Qed.

Definition isPalindrome_run `{Runtime} (s : gostring) : option bool :=
  let rs := strings_ToLower s in
  pal_loop rs 0 (Z.of_nat (length rs) - 1).

(** [isPalindrome]; the loop never panics ([isPalindrome_run_total]). *)
Definition isPalindrome `{Runtime} (s : gostring) : bool :=
  default false (isPalindrome_run s).

(** [regexp.MustCompile(`\s+`)]. *)
Definition reSpaces : regex := RPlus class_s.

Definition wordCount (s : gostring) : Z :=
  let trimmed := strings_TrimSpace s in
  if bool_decide (trimmed = []) then 0
  else
    let parts := Split reSpaces trimmed in
    Z.of_nat (length parts).

Definition analyzeString `{Runtime} (s : gostring) : Properties :=
  let freq := charFreqMap s in
  {| Length := Z.of_nat (length s);
     IsPalindrome := isPalindrome s;
     UniqueCharacters := Z.of_nat (size freq);
     WordCount := wordCount s;
     SHA256Hash := computeHash s;
     CharacterFrequencyMap := freq |}.

(** ** Dynamic values and results *)

(** An [interface{}] value that is not [nil], by dynamic type.  A float64 is
    carried by its bit pattern, a slice or map (as decoded from a JSON array
    or object) by its [%v] text. *)
Inductive dynamic :=
| DInt (n : Z)
| DBool (b : bool)
| DString (s : gostring)
| DFloat64 (f : Z)
| DOther (text : gostring).

Inductive result (A E : Type) :=
| Ok (a : A)
| Err (e : E).
Arguments Ok {A E} a.
Arguments Err {A E} e.

(** [fmt.Sprintf("%v", v)]. *)
Definition Sprintf_v `{Runtime} (v : dynamic) : gostring :=
  match v with
  | DInt n => Itoa n
  | DBool b => if b then str "true" else str "false"
  | DString s => s
  | DFloat64 f => float64_format f
  | DOther text => text
  end.

(** ** The natural-language translator (main.go, lines 293-352) *)

(** The three [errors.New] values of [parseNaturalLanguage]. *)
Inductive error :=
| ErrEmptyQuery
| ErrUnparseable
| ErrConflictingFilters.

(** [err.Error()]. *)
Definition Error (e : error) : string :=
  match e with
  | ErrEmptyQuery => "empty query"
  | ErrUnparseable => "unable to parse natural language query"
  | ErrConflictingFilters => "conflicting filters"
  end.

(** [longer than\s+(\d+)] *)
Definition reLonger : regex :=
  RCat (RLit (str "longer than")) (RCat (RPlus class_s) (RGroup 1 (RPlus class_d))).

(** [longer than\s+(\d+)\s+characters] *)
Definition reLonger2 : regex :=
  RCat (RLit (str "longer than"))
    (RCat (RPlus class_s)
       (RCat (RGroup 1 (RPlus class_d))
          (RCat (RPlus class_s) (RLit (str "characters"))))).

(** [containing the letter\s+([a-zA-Z])|contain the letter\s+([a-zA-Z])|containing\s+([a-zA-Z])|contain\s+([a-zA-Z])] *)
Definition reContains : regex :=
  RAlt (RCat (RLit (str "containing the letter"))
          (RCat (RPlus class_s) (RGroup 1 (RClass class_alpha))))
    (RAlt (RCat (RLit (str "contain the letter"))
             (RCat (RPlus class_s) (RGroup 2 (RClass class_alpha))))
       (RAlt (RCat (RLit (str "containing"))
                (RCat (RPlus class_s) (RGroup 3 (RClass class_alpha))))
          (RCat (RLit (str "contain"))
             (RCat (RPlus class_s) (RGroup 4 (RClass class_alpha)))))).

(** [\b(\d+)\s+word] *)
Definition reWords : regex :=
  RCat RWordBoundary
    (RCat (RGroup 1 (RPlus class_d)) (RCat (RPlus class_s) (RLit (str "word")))).

(** Rule 1: the single-word phrases. *)
Definition rule_single_word (parsed : gmap string dynamic) (q : gostring)
    : gmap string dynamic :=
  if strings_Contains q (str "single word")
     || strings_Contains q (str "single-word")
     || strings_Contains q (str "one word")
  then <["word_count" := DInt 1]> parsed
  else parsed.

(** Rule 2: the stem "palindrom". *)
Definition rule_palindrome (parsed : gmap string dynamic) (q : gostring)
    : gmap string dynamic :=
  if strings_Contains q (str "palindrom")
  then <["is_palindrome" := DBool true]> parsed
  else parsed.

(** Rule 3, once for each of its two patterns: [len(m) == 2], then
    [strconv.Atoi(m[1])], then [parsed["min_length"] = n + 1]. *)
Definition rule_longer (re : regex) (parsed : gmap string dynamic) (q : gostring)
    : gmap string dynamic :=
  match FindStringSubmatch re q with
  | [_; m1] =>
      match Atoi m1 with
      | Some n => <["min_length" := DInt (wrap (n + 1))]> parsed
      | None => parsed
      end
  | _ => parsed
  end.

(** Rule 4: [len(m) >= 5], then the first non-empty group among
    [m[1..4]], lowercased. *)
Definition rule_contains `{Runtime} (parsed : gmap string dynamic) (q : gostring)
    : gmap string dynamic :=
  let m := FindStringSubmatch reContains q in
  if bool_decide (5 ≤ length m)%nat then
    match list_find (λ mi : gostring, mi ≠ []) (take 4 (drop 1 m)) with
    | Some (_, mi) => <["contains_character" := DString (strings_ToLower mi)]> parsed
    | None => parsed
    end
  else parsed.

(** Rule 5: the phrase "first vowel". *)
Definition rule_first_vowel (parsed : gmap string dynamic) (q : gostring)
    : gmap string dynamic :=
  if strings_Contains q (str "first vowel")
     || strings_Contains q (str "first vowel a")
  then <["contains_character" := DString (str "a")]> parsed
  else parsed.

(** Rule 6: "N word", only when no word count is set yet. *)
Definition rule_n_words (parsed : gmap string dynamic) (q : gostring)
    : gmap string dynamic :=
  match parsed !! "word_count" with
  | Some _ => parsed
  | None =>
      match FindStringSubmatch reWords q with
      | [_; m1] =>
          match Atoi m1 with
          | Some n => <["word_count" := DInt n]> parsed
          | None => parsed
          end
      | _ => parsed
      end
  end.

(** The map [parsed] after all the rules ran on the normalised text [q]. *)
Definition apply_rules `{Runtime} (q : gostring) : gmap string dynamic :=
  let parsed := ∅ in
  let parsed := rule_single_word parsed q in
  let parsed := rule_palindrome parsed q in
  let parsed := rule_longer reLonger parsed q in
  let parsed := rule_longer reLonger2 parsed q in
  let parsed := rule_contains parsed q in
  let parsed := rule_first_vowel parsed q in
  rule_n_words parsed q.

(** Lines 343-350: the test on [min_length] against [max_length], for a
    [max_length] of dynamic type [int] and of dynamic type [float64]. *)
Definition conflicting `{Runtime} (parsed : gmap string dynamic) : bool :=
  match parsed !! "min_length" with
  | Some (DInt min) =>
      match parsed !! "max_length" with
      | Some (DInt max) => bool_decide (min > max)
      | Some (DFloat64 maxf) => bool_decide (min > float64_to_int maxf)
      | _ => false
      end
  | _ => false
  end.

(** The text the rules read: [strings.ToLower(strings.TrimSpace(query))]. *)
Definition normalize `{Runtime} (query : gostring) : gostring :=
  strings_ToLower (strings_TrimSpace query).

Definition parseNaturalLanguage `{Runtime} (query : gostring)
    : result (gmap string dynamic) error :=
  let q := normalize query in
  if bool_decide (q = []) then Err ErrEmptyQuery
  else
    let parsed := apply_rules q in
    if bool_decide (size parsed = 0%nat) then Err ErrUnparseable
    else if conflicting parsed then Err ErrConflictingFilters
    else Ok parsed.

(** ** Filter evaluation *)

(** The keys of a frequency map, as the [range] loops visit them (Go leaves
    the order open; the loops only ask whether some key passes a test). *)
Definition keys (m : gmap (list Z) Z) : list gostring := (map_to_list m).*1.

(** Lines 252-263 of [getAllStringsHandler]: the search for the character
    among the keys, [[]rune(ch)[0] == *containsCharacter]. *)
Definition found_character (m : gmap (list Z) Z) (c : rune) : bool :=
  existsb (λ ch, bool_decide (head ch = Some c)) (keys m).

(** Lines 408-414 of [applyParsedFilters]: [strings.EqualFold(ch, chStr)]. *)
Definition found_folded `{Runtime} (m : gmap (list Z) Z) (chStr : gostring) : bool :=
  existsb (λ ch, strings_EqualFold ch chStr) (keys m).

(** The five optional filters of [getAllStringsHandler] (its pointer
    variables; [nil] is [None]). *)
Record Filter := {
  filterIsPalindrome : option bool;
  minLength : option Z;
  maxLength : option Z;
  wordCountFilter : option Z;
  containsCharacter : option Z;
}.

(** Lines 239-263: the value of [ok] for one item. *)
Definition filter_ok (f : Filter) (item : StoredString) : bool :=
  let p := Props item in
  let ok := true in
  let ok := match filterIsPalindrome f with
            | Some b => if bool_decide (IsPalindrome p ≠ b) then false else ok
            | None => ok
            end in
  let ok := match minLength f with
            | Some n => if bool_decide (Length p < n) then false else ok
            | None => ok
            end in
  let ok := match maxLength f with
            | Some n => if bool_decide (Length p > n) then false else ok
            | None => ok
            end in
  let ok := match wordCountFilter f with
            | Some n => if bool_decide (WordCount p ≠ n) then false else ok
            | None => ok
            end in
  let ok := match containsCharacter f with
            | Some c =>
                let found := found_character (CharacterFrequencyMap p) c in
                if negb found then false else ok
            | None => ok
            end in
  ok.

(** Lines 359-419 of [applyParsedFilters]: the value of [ok] for one item. *)
Definition parsed_ok `{Runtime} (parsed : gmap string dynamic) (item : StoredString)
    : bool :=
  let p := Props item in
  let ok := true in
  let ok := match parsed !! "is_palindrome" with
            | Some (DBool b) => if bool_decide (IsPalindrome p ≠ b) then false else ok
            | _ => ok
            end in
  let ok := match parsed !! "word_count" with
            | Some (DInt vv) => if bool_decide (WordCount p ≠ vv) then false else ok
            | Some (DFloat64 vv) =>
                if bool_decide (WordCount p ≠ float64_to_int vv) then false else ok
            | _ => ok
            end in
  let ok := match parsed !! "min_length" with
            | Some (DInt vv) => if bool_decide (Length p < vv) then false else ok
            | Some (DFloat64 vv) =>
                if bool_decide (Length p < float64_to_int vv) then false else ok
            | _ => ok
            end in
  let ok := match parsed !! "max_length" with
            | Some (DInt vv) => if bool_decide (Length p > vv) then false else ok
            | Some (DFloat64 vv) =>
                if bool_decide (Length p > float64_to_int vv) then false else ok
            | _ => ok
            end in
  let ok := match parsed !! "contains_character" with
            | Some v =>
                let chStr := Sprintf_v v in
                if bool_decide (chStr = []) then false
                else
                  let found := found_folded (CharacterFrequencyMap p) chStr in
                  if negb found then false else ok
            | None => ok
            end in
  ok.

(** The items of the store in the order of the [range] loop (left open by
    Go; fixed here by [map_to_list]). *)
Definition items (m : gmap (list Z) StoredString) : list StoredString :=
  (map_to_list m).*2.

Definition applyParsedFilters `{Runtime} (m : gmap (list Z) StoredString)
    (parsed : gmap string dynamic) : list StoredString :=
  filter (λ item, parsed_ok parsed item = true) (items m).

(** ** The handlers *)

Inductive method := GET | POST | DELETE | OtherMethod.

#[global] Instance method_eq_dec : EqDecision method.
Proof. solve_decision. Defined.

(** What a handler writes: [w.WriteHeader(code)] alone, or [writeJSON]. *)
Inductive body :=
| BEmpty
| BError (msg : string)
| BItem (item : StoredString)
| BList (data : list StoredString) (count : Z) (filters_applied : gmap string dynamic)
| BInterpreted (data : list StoredString) (count : Z) (original : gostring)
    (parsed_filters : gmap string dynamic).

Record response := { code : Z; payload : body }.

Definition StatusOK : Z := 200.
Definition StatusCreated : Z := 201.
Definition StatusNoContent : Z := 204.
Definition StatusBadRequest : Z := 400.
Definition StatusNotFound : Z := 404.
Definition StatusMethodNotAllowed : Z := 405.
Definition StatusConflict : Z := 409.
Definition StatusUnprocessableEntity : Z := 422.

Definition writeJSON (c : Z) (v : body) : response := {| code := c; payload := v |}.
Definition WriteHeader (c : Z) : response := {| code := c; payload := BEmpty |}.

(** [CreateReq]: the decoded [value] field, [None] when it is [nil]. *)
Record CreateReq := { body_Value : option dynamic }.

(** The text ["value"], quotation marks included. *)
Definition quoted_value : string :=
  let q := String (Ascii.ascii_of_nat 34) EmptyString in
  q +:+ "value" +:+ q.

Definition validateCreateBody (b : CreateReq) : result gostring (Z * string) :=
  match body_Value b with
  | None => Err (StatusBadRequest, "missing " +:+ quoted_value +:+ " field")
  | Some (DString v) => Ok v
  | Some _ => Err (StatusUnprocessableEntity, quoted_value +:+ " must be a string")
  end.

(** A POST as the handler sees it: the method and the outcome of
    [json.NewDecoder(r.Body).Decode(&body)] ([None]: the decoder failed). *)
Record post_request := { post_method : method; post_body : option CreateReq }.

(** Lines 111-133: everything before the record is built.  Either the
    handler has answered, or it goes on with the value, its properties and
    its id, having seen no record under the id while it held the read lock. *)
Definition post_check `{Runtime} (m : gmap (list Z) StoredString) (r : post_request)
    : response + gostring * Properties * gostring :=
  if bool_decide (post_method r ≠ POST) then inl (WriteHeader StatusMethodNotAllowed)
  else
    match post_body r with
    | None => inl (writeJSON StatusBadRequest (BError "invalid JSON body"))
    | Some b =>
        match validateCreateBody b with
        | Err (c, msg) => inl (writeJSON c (BError msg))
        | Ok val =>
            let props := analyzeString val in
            let id := SHA256Hash props in
            let exists_ := bool_decide (is_Some (m !! id)) in
            if exists_ then
              inl (writeJSON StatusConflict (BError "string already exists in the system"))
            else inr (val, props, id)
        end
    end.

(** Lines 134-140: the record, stamped with [time.Now()]. *)
Definition post_item (now : gostring) (v : gostring * Properties * gostring)
    : StoredString :=
  let '(val, props, id) := v in
  {| ID := id; Value := val; Props := props; CreatedAt := now |}.

(** Lines 141-144: the write under the write lock, then the answer. *)
Definition post_store (m : gmap (list Z) StoredString) (item : StoredString)
    : gmap (list Z) StoredString * response :=
  (<[ID item := item]> m, writeJSON StatusCreated (BItem item)).

(** [postStringsHandler] run without interruption. *)
Definition postStringsHandler `{Runtime} (m : gmap (list Z) StoredString)
    (r : post_request) (now : gostring) : gmap (list Z) StoredString * response :=
  match post_check m r with
  | inl resp => (m, resp)
  | inr v => post_store m (post_item now v)
  end.

(** A request on [/strings/{value}]: the method and the outcome of
    [url.PathUnescape] on the rest of the path ([None]: it failed). *)
Record path_request := { path_method : method; path_decoded : option gostring }.

Definition getStringByValueHandler `{Runtime} (m : gmap (list Z) StoredString)
    (r : path_request) : response :=
  if bool_decide (path_method r ≠ GET) then WriteHeader StatusMethodNotAllowed
  else
    match path_decoded r with
    | None => writeJSON StatusBadRequest (BError "invalid URL-encoded string")
    | Some decoded =>
        if bool_decide (decoded = []) then
          writeJSON StatusBadRequest (BError "missing string value in path")
        else
          let id := computeHash decoded in
          match m !! id with
          | None => writeJSON StatusNotFound (BError "string does not exist in the system")
          | Some item => writeJSON StatusOK (BItem item)
          end
    end.

Definition deleteStringHandler `{Runtime} (m : gmap (list Z) StoredString)
    (r : path_request) : gmap (list Z) StoredString * response :=
  if bool_decide (path_method r ≠ DELETE) then (m, WriteHeader StatusMethodNotAllowed)
  else
    match path_decoded r with
    | None => (m, writeJSON StatusBadRequest (BError "invalid URL-encoded string"))
    | Some decoded =>
        if bool_decide (decoded = []) then
          (m, writeJSON StatusBadRequest (BError "missing string value in path"))
        else
          let id := computeHash decoded in
          match m !! id with
          | None =>
              (m, writeJSON StatusNotFound (BError "string does not exist in the system"))
          | Some _ => (delete id m, WriteHeader StatusNoContent)
          end
    end.

Definition parseBoolParam (v : gostring) : option bool :=
  if bool_decide (v = str "true") then Some true
  else if bool_decide (v = str "false") then Some false
  else None.

(** A GET on [/strings]: the method and [q.Get] of the five parameters
    (the empty string when a parameter is absent). *)
Record list_request := {
  list_method : method;
  get_is_palindrome : gostring;
  get_min_length : gostring;
  get_max_length : gostring;
  get_word_count : gostring;
  get_contains_character : gostring;
}.

(** A numeric parameter (lines 204-227): unset when empty, refused when
    [strconv.Atoi] fails or the number is negative. *)
Definition int_param (v : gostring) : result (option Z) unit :=
  if bool_decide (v = []) then Ok None
  else
    match Atoi v with
    | Some x => if bool_decide (x < 0) then Err () else Ok (Some x)
    | None => Err ()
    end.

(** Lines 188-235: the filter read from the parameters, or the message of
    the first parameter refused. *)
Definition read_filter `{Runtime} (r : list_request) : result Filter string :=
  match (if bool_decide (get_is_palindrome r = []) then Ok None
         else match parseBoolParam (strings_ToLower (get_is_palindrome r)) with
              | Some b => Ok (Some b)
              | None => Err ()
              end) with
  | Err _ => Err "invalid is_palindrome value"
  | Ok fp =>
      match int_param (get_min_length r) with
      | Err _ => Err "invalid min_length"
      | Ok mn =>
          match int_param (get_max_length r) with
          | Err _ => Err "invalid max_length"
          | Ok mx =>
              match int_param (get_word_count r) with
              | Err _ => Err "invalid word_count"
              | Ok wc =>
                  match get_contains_character r with
                  | [] => Ok {| filterIsPalindrome := fp; minLength := mn;
                                maxLength := mx; wordCountFilter := wc;
                                containsCharacter := None |}
                  | [c] => Ok {| filterIsPalindrome := fp; minLength := mn;
                                 maxLength := mx; wordCountFilter := wc;
                                 containsCharacter := Some c |}
                  | _ => Err "contains_character must be a single character"
                  end
              end
          end
      end
  end.

(** Lines 269-284. *)
Definition filtersApplied (f : Filter) : gmap string dynamic :=
  let fa := ∅ in
  let fa := match filterIsPalindrome f with
            | Some b => <["is_palindrome" := DBool b]> fa | None => fa end in
  let fa := match minLength f with
            | Some n => <["min_length" := DInt n]> fa | None => fa end in
  let fa := match maxLength f with
            | Some n => <["max_length" := DInt n]> fa | None => fa end in
  let fa := match wordCountFilter f with
            | Some n => <["word_count" := DInt n]> fa | None => fa end in
  let fa := match containsCharacter f with
            | Some c => <["contains_character" := DString [c]]> fa | None => fa end in
  fa.

Definition getAllStringsHandler `{Runtime} (m : gmap (list Z) StoredString)
    (r : list_request) : response :=
  if bool_decide (list_method r ≠ GET) then WriteHeader StatusMethodNotAllowed
  else
    match read_filter r with
    | Err msg => writeJSON StatusBadRequest (BError msg)
    | Ok f =>
        let results := filter (λ item, filter_ok f item = true) (items m) in
        writeJSON StatusOK (BList results (Z.of_nat (length results)) (filtersApplied f))
    end.

(** A GET on [/strings/filter-by-natural-language]: the method and
    [r.URL.Query().Get("query")]. *)
Record nl_request := { nl_method : method; nl_query : gostring }.

Definition naturalLanguageHandler `{Runtime} (m : gmap (list Z) StoredString)
    (r : nl_request) : response :=
  if bool_decide (nl_method r ≠ GET) then WriteHeader StatusMethodNotAllowed
  else
    let q := nl_query r in
    if bool_decide (q = []) then
      writeJSON StatusBadRequest (BError "query parameter is required")
    else
      match parseNaturalLanguage q with
      | Err err => writeJSON StatusBadRequest (BError (Error err))
      | Ok parsed =>
          let results := applyParsedFilters m parsed in
          writeJSON StatusOK (BInterpreted results (Z.of_nat (length results)) q parsed)
      end.

(** ** The server

    Requests are served in parallel; what they share is [store.m], read and
    written only inside the critical sections of [store.RWMutex].  A state of
    the server is the map, the creations that have left the read-locked
    existence check and not yet taken the write lock, and the answers given
    so far.  Every event is one critical section together with the handler
    code that touches no shared state around it. *)

Record server := {
  store : gmap (list Z) StoredString;
  waiting : list StoredString;
  answers : list response;
}.

Inductive event :=
| PostArrives (r : post_request) (now : gostring) (* lines 110-140 *)
| PostStores (i : nat)                            (* lines 141-144, i-th waiting creation *)
| GetByValue (r : path_request)
| GetAll (r : list_request)
| NaturalLanguage (r : nl_request)
| Delete (r : path_request).

Definition init : server := {| store := ∅; waiting := []; answers := [] |}.

Definition exec `{Runtime} (s : server) (e : event) : server :=
  match e with
  | PostArrives r now =>
      match post_check (store s) r with
      | inl resp => {| store := store s; waiting := waiting s;
                       answers := answers s ++ [resp] |}
      | inr v => {| store := store s; waiting := waiting s ++ [post_item now v];
                    answers := answers s |}
      end
  | PostStores i =>
      match waiting s !! i with
      | None => s
      | Some item =>
          let '(m, resp) := post_store (store s) item in
          {| store := m; waiting := delete i (waiting s);
             answers := answers s ++ [resp] |}
      end
  | GetByValue r =>
      {| store := store s; waiting := waiting s;
         answers := answers s ++ [getStringByValueHandler (store s) r] |}
  | GetAll r =>
      {| store := store s; waiting := waiting s;
         answers := answers s ++ [getAllStringsHandler (store s) r] |}
  | NaturalLanguage r =>
      {| store := store s; waiting := waiting s;
         answers := answers s ++ [naturalLanguageHandler (store s) r] |}
  | Delete r =>
      let '(m, resp) := deleteStringHandler (store s) r in
      {| store := m; waiting := waiting s; answers := answers s ++ [resp] |}
  end.

Definition run `{Runtime} (s : server) (es : list event) : server := foldl exec s es.

(** A state the server can be in. *)
Definition reachable `{Runtime} (s : server) : Prop := ∃ es, s = run init es.

(** A request to create [v], well formed. *)
Definition create (v : gostring) : post_request :=
  {| post_method := POST; post_body := Some {| body_Value := Some (DString v) |} |}.

(** ** Notions the statements use *)

(** Sum of the counts of a frequency map. *)
Definition sum_values (m : gmap (list Z) Z) : Z :=
  map_fold (λ _ v acc, v + acc) 0 m.

(** The case-folded code-point sequence that [isPalindrome] compares. *)
Definition folded `{Runtime} (s : gostring) : gostring := strings_ToLower s.

(** Lowercasing of an ASCII rune. *)
Definition ascii_lower (r : rune) : rune :=
  if bool_decide (65 ≤ r ≤ 90) then r + 32 else r.

(** Number of white-space-delimited tokens, following the words of the
    specification: white space is Unicode white space, leading and trailing
    white space is dropped and a run of white space separates once.
    [in_token] tells whether the previous character belonged to a token. *)
Fixpoint count_tokens (in_token : bool) (s : gostring) : nat :=
  match s with
  | [] => O
  | c :: s' =>
      if unicode_IsSpace c then count_tokens false s'
      else ((if in_token then 0 else 1) + count_tokens true s')%nat
  end.

Definition spec_word_count (s : gostring) : Z := Z.of_nat (count_tokens false s).

(** Number of maximal runs of characters of the class [p]; [in_run] tells
    whether the previous character belonged to a run. *)
Fixpoint count_runs (p : Z → bool) (in_run : bool) (s : list Z) : nat :=
  match s with
  | [] => O
  | c :: s' =>
      if p c then ((if in_run then 0 else 1) + count_runs p true s')%nat
      else count_runs p false s'
  end.

(** The text starts with a character of the class. *)
Definition starts_with (p : Z → bool) (s : list Z) : bool :=
  from_option p false (head s).

(** The positions of [s] at which the text [l] starts. *)
Definition occurrences (l s : gostring) : list nat :=
  filter (λ i, is_Some (strip_prefix l (drop i s))) (seq 0 (S (length s))).

(** The number a numeric pattern hands to its rule: the group of the
    leftmost match, when [strconv.Atoi] accepts it. *)
Definition numeral_found (re : regex) (q : gostring) : option Z :=
  match FindStringSubmatch re q with
  | [_; m1] => Atoi m1
  | _ => None
  end.






(** A record as [postStringsHandler] builds it from its value. *)
Definition well_formed `{Runtime} (item : StoredString) : Prop :=
  Props item = analyzeString (Value item) ∧ ID item = computeHash (Value item).

(** An answer that reports an error. *)
Definition is_error (r : response) : bool := bool_decide (400 ≤ code r).

(** The filter with the single field [containsCharacter]. *)
Definition contains_filter (c : rune) : Filter :=
  {| filterIsPalindrome := None; minLength := None; maxLength := None;
     wordCountFilter := None; containsCharacter := Some c |}.

(** The record that a successful creation of [v] at time [now] stores. *)
Definition record_of `{Runtime} (v now : gostring) : StoredString :=
  post_item now (v, analyzeString v, SHA256Hash (analyzeString v)).

(** A runtime to evaluate closed examples with: no case pairs above ASCII
    and stand-ins for the digest and the float conversions.  The examples
    are ASCII texts and none depends on the value of a digest. *)
Definition sample_runtime : Runtime :=
  {| To_LowerCase := λ r, r;
     SimpleFold_reaches := λ _ _, false;
     sha256_Sum256 := λ s, s;
     float64_to_int := λ _, 0;
     float64_format := λ _, [] |}.

(** The invariant of the server: a stored record sits under its own id and
    is the analysis of its value, and so is every record about to be
    stored. *)
Definition server_inv `{Runtime} (s : server) : Prop :=
  (∀ k item, store s !! k = Some item → well_formed item ∧ ID item = k)
  ∧ Forall well_formed (waiting s).

(** ** Requests, well formed *)

(** GET [/strings/{v}] and DELETE [/strings/{v}] for a value whose escaped
    form decodes to [v]. *)
Definition get_value (v : gostring) : path_request :=
  {| path_method := GET; path_decoded := Some v |}.

Definition delete_value (v : gostring) : path_request :=
  {| path_method := DELETE; path_decoded := Some v |}.

(** GET [/strings] without parameters. *)
Definition list_all : list_request :=
  {| list_method := GET; get_is_palindrome := []; get_min_length := [];
     get_max_length := []; get_word_count := []; get_contains_character := [] |}.

(** The letter that rule 4 of the translator takes from the leftmost match
    of [reContains]: the first group among [m[1..4]] that is not empty. *)
Definition letter_found (q : gostring) : option gostring :=
  snd <$> list_find (λ mi : gostring, mi ≠ [])
            (take 4 (drop 1 (FindStringSubmatch reContains q))).

(** ** Tactics *)

(** The fields of a server state written out, and nothing else unfolded. *)
Ltac proj :=
  cbn [store waiting answers init app lookup list_lookup delete list_delete
       ID record_of post_item].


(** * Properties *)

(** *** The palindrome loop *)

Lemma index_nat (rs : list Z) (k : nat) : index rs (Z.of_nat k) = rs !! k.
Proof. unfold index. rewrite bool_decide_true by lia. by rewrite Nat2Z.id. Qed.

(** With [i + j = len(rs) - 1] the loop stays in range and answers whether
    the positions from [i] to [j] mirror each other. *)
Lemma pal_loop_spec (rs : list Z) (i j : Z) :
  0 ≤ i → i + j = Z.of_nat (length rs) - 1 →
  ∃ b, pal_loop rs i j = Some b ∧
       (b = true ↔ ∀ k : nat, i ≤ Z.of_nat k ≤ j →
                     rs !! k = rs !! (length rs - 1 - k)%nat).
Proof.
  funelim (pal_loop rs i j); intros Hi Hsum;
    repeat match goal with
      | Hx : index _ _ = _ |- _ =>
          unfold index in Hx; rewrite bool_decide_true in Hx by lia
      | Hx : _ = pal_loop _ _ _ |- _ => clear Hx
      end.
  - (* i >= j: no turn of the loop *)
    exists true. split; [done |]. split; [| done]. intros _ k Hk.
    f_equal. lia.
  - (* both indices in range *)
    match goal with
    | Hj : rs !! Z.to_nat j = Some ?y, Hi' : rs !! Z.to_nat i = Some ?x |- _ =>
        rename Hj into Hjb, Hi' into Hia
    end.
    assert (Hji : Z.to_nat j = (length rs - 1 - Z.to_nat i)%nat) by lia.
    case_bool_decide as Hab.
    + exists false. split; [done |]. split; [done |]. intros Hall.
      specialize (Hall (Z.to_nat i)). rewrite <- Hji, Hia, Hjb in Hall.
      exfalso. apply Hab. assert (Some a = Some b) by (apply Hall; lia). congruence.
    + match goal with
      | IH : _ → _ → ∃ _, _ |- _ => destruct IH as (b' & Hrun & Hb'); [lia | lia |]
      end.
      exists b'. split; [done |]. rewrite Hb'. subst b.
      split; intros Hall k Hk.
      * destruct (decide (Z.of_nat k = i)) as [<- | ?].
        { rewrite Nat2Z.id in Hia, Hji. rewrite <- Hji. by rewrite Hia, Hjb. }
        destruct (decide (Z.of_nat k = j)) as [Hkj | ?].
        { assert (k = Z.to_nat j) as -> by lia.
          replace (length rs - 1 - Z.to_nat j)%nat with (Z.to_nat i) by lia.
          by rewrite Hia, Hjb. }
        apply Hall. lia.
      * apply Hall. lia.
  - (* rs[j] out of range: excluded *)
    exfalso.
    match goal with Hn : _ !! _ = None |- _ => apply lookup_ge_None in Hn end. lia.
  - (* rs[i] out of range: excluded *)
    exfalso.
    match goal with Hn : _ !! _ = None |- _ => apply lookup_ge_None in Hn end. lia.
Qed.

Lemma mirror_reverse (rs : list Z) :
  (∀ k : nat, 0 ≤ Z.of_nat k ≤ Z.of_nat (length rs) - 1 →
              rs !! k = rs !! (length rs - 1 - k)%nat)
  ↔ rs = reverse rs.
Proof.
  split.
  - intros Hall. apply list_eq. intros k.
    destruct (decide (k < length rs)%nat) as [Hk | Hk].
    + rewrite reverse_lookup by done. rewrite Hall by lia. f_equal. lia.
    + rewrite !lookup_ge_None_2; [done | rewrite length_reverse; lia | lia].
  - intros Heq k Hk. rewrite Heq at 1. rewrite reverse_lookup by lia. f_equal. lia.
Qed.

Section palindrome.
Context `{Runtime}.

Lemma isPalindrome_run_total (s : gostring) :
  isPalindrome_run s = Some (isPalindrome s).
Proof.
  unfold isPalindrome. unfold isPalindrome_run.
  destruct (pal_loop_spec (strings_ToLower s) 0 (Z.of_nat (length (strings_ToLower s)) - 1))
    as (b & -> & _); [lia | lia | done].
Qed.

Lemma isPalindrome_folded (s : gostring) :
  isPalindrome s = true ↔ folded s = reverse (folded s).
Proof.
  unfold isPalindrome, isPalindrome_run, folded.
  destruct (pal_loop_spec (strings_ToLower s) 0 (Z.of_nat (length (strings_ToLower s)) - 1))
    as (b & -> & Hb); [lia | lia |].
  simpl. rewrite Hb. apply mirror_reverse.
Qed.
End palindrome.

(** *** The frequency map *)

Lemma wrap_small (z : Z) : min_int ≤ z ≤ max_int → wrap z = z.
Proof.
  unfold wrap, min_int, max_int. intros Hz.
  rewrite Z.mod_small by lia. lia.
Qed.

Lemma sum_values_empty : sum_values ∅ = 0.
Proof. apply map_fold_empty. Qed.

Lemma sum_values_insert_fresh (m : gmap (list Z) Z) (k : list Z) (v : Z) :
  m !! k = None → sum_values (<[k := v]> m) = v + sum_values m.
Proof.
  intros Hk. unfold sum_values.
  rewrite map_fold_insert_L; [done | intros; lia | done].
Qed.

Lemma sum_values_lookup (m : gmap (list Z) Z) (k : list Z) (v : Z) :
  m !! k = Some v → sum_values m = v + sum_values (delete k m).
Proof.
  intros Hk. rewrite <- (insert_delete_id m k v) at 1 by done.
  apply sum_values_insert_fresh, lookup_delete_eq.
Qed.

Lemma sum_values_insert_over (m : gmap (list Z) Z) (k : list Z) (old v : Z) :
  m !! k = Some old → sum_values (<[k := v]> m) = v + sum_values m - old.
Proof.
  intros Hk. rewrite (sum_values_lookup m k old) by done.
  rewrite <- insert_delete_eq.
  rewrite sum_values_insert_fresh by apply lookup_delete_eq. lia.
Qed.

Lemma sum_values_nonneg (m : gmap (list Z) Z) :
  map_Forall (λ _ v, 1 ≤ v) m → 0 ≤ sum_values m.
Proof.
  induction m as [| k v m Hk IH] using map_ind; intros Hall.
  - by rewrite sum_values_empty.
  - rewrite sum_values_insert_fresh by done.
    apply map_Forall_insert in Hall as [Hv Hm]; [| done].
    specialize (IH Hm). lia.
Qed.

Lemma charFreqMap_snoc (s : list Z) (r : Z) :
  charFreqMap (s ++ [r]) = map_incr (charFreqMap s) [r].
Proof. unfold charFreqMap. by rewrite foldl_app. Qed.

(** The counts are positive and add up to the number of runes read, as long
    as that number fits an [int]. *)
Lemma charFreqMap_counts (s : list Z) :
  Z.of_nat (length s) ≤ max_int →
  map_Forall (λ _ v, 1 ≤ v) (charFreqMap s)
  ∧ sum_values (charFreqMap s) = Z.of_nat (length s).
Proof.
  induction s as [| r s IH] using rev_ind; intros Hlen.
  - split; [apply map_Forall_empty | apply sum_values_empty].
  - rewrite length_app in Hlen. simpl in Hlen.
    destruct IH as [Hpos Hsum]; [lia |].
    rewrite charFreqMap_snoc, length_app. simpl. unfold map_incr.
    pose proof (sum_values_nonneg _ Hpos) as Hnn.
    destruct (charFreqMap s !! [r]) as [old |] eqn:Hold; simpl.
    + pose proof (Hpos _ _ Hold) as Hone. simpl in Hone.
      pose proof (sum_values_lookup _ _ _ Hold) as Hsplit.
      assert (0 ≤ sum_values (delete [r] (charFreqMap s))).
      { apply sum_values_nonneg. intros k v Hkv.
        apply lookup_delete_Some in Hkv as [_ Hkv]. by apply (Hpos k). }
      rewrite wrap_small by (unfold min_int, max_int in *; lia).
      split.
      * apply map_Forall_insert_2; [lia | done].
      * rewrite (sum_values_insert_over _ _ old) by done. lia.
    + rewrite wrap_small by (unfold min_int, max_int; lia).
      split.
      * apply map_Forall_insert_2; [lia | done].
      * rewrite sum_values_insert_fresh by done. lia.
Qed.

Lemma charFreqMap_dom (s : list Z) :
  dom (charFreqMap s) = list_to_set ((λ r, [r]) <$> s).
Proof.
  induction s as [| r s IH] using rev_ind.
  - done.
  - rewrite charFreqMap_snoc. unfold map_incr.
    rewrite dom_insert_L, IH, fmap_app, list_to_set_app_L. simpl. set_solver.
Qed.

Lemma size_list_to_set_dups (l : list (list Z)) :
  size (list_to_set l : gset (list Z)) = length (remove_dups l).
Proof.
  rewrite <- (size_list_to_set (C := gset (list Z)) (remove_dups l))
    by apply NoDup_remove_dups.
  f_equal. apply set_eq. intros x.
  by rewrite !elem_of_list_to_set, elem_of_remove_dups.
Qed.

Lemma remove_dups_singletons (s : list Z) :
  remove_dups ((λ r, [r]) <$> s) = (λ r, [r]) <$> remove_dups s.
Proof.
  induction s as [| r s IH]; [done |]. rewrite fmap_cons. cbn [remove_dups].
  destruct (decide_rel elem_of [r] _) as [Hin | Hin];
    destruct (decide_rel elem_of r s) as [Hin' | Hin'].
  - done.
  - exfalso. apply Hin'. apply list_elem_of_fmap in Hin as (r' & Heq & Hr'). congruence.
  - exfalso. apply Hin. apply list_elem_of_fmap. eauto.
  - by rewrite fmap_cons, IH.
Qed.

Lemma charFreqMap_size (s : list Z) :
  size (charFreqMap s) = length (remove_dups s).
Proof.
  rewrite <- size_dom, charFreqMap_dom, size_list_to_set_dups.
  by rewrite remove_dups_singletons, length_fmap.
Qed.

Lemma elem_of_keys (m : gmap (list Z) Z) (k : list Z) :
  k ∈ keys m ↔ k ∈ dom m.
Proof.
  unfold keys. rewrite elem_of_dom, list_elem_of_fmap. split.
  - intros ([k' v] & -> & Hkv). apply elem_of_map_to_list in Hkv. by exists v.
  - intros [v Hv]. exists (k, v). split; [done |]. by apply elem_of_map_to_list.
Qed.

(** The keys are the one-rune strings of the runes of the value: [ch[0]] is
    in range for every key. *)
Lemma charFreqMap_keys (s : list Z) (k : list Z) :
  k ∈ keys (charFreqMap s) ↔ ∃ r, r ∈ s ∧ k = [r].
Proof.
  rewrite elem_of_keys, charFreqMap_dom, elem_of_list_to_set, list_elem_of_fmap.
  naive_solver.
Qed.

Lemma found_character_spec (s : list Z) (c : Z) :
  found_character (charFreqMap s) c = true ↔ c ∈ s.
Proof.
  unfold found_character. rewrite existsb_exists. split.
  - intros (k & Hk & Hc). apply list_elem_of_In, charFreqMap_keys in Hk as (r & Hr & ->).
    apply bool_decide_eq_true in Hc. simpl in Hc. congruence.
  - intros Hc. exists [c]. split.
    + apply list_elem_of_In, charFreqMap_keys. eauto.
    + by apply bool_decide_eq_true.
Qed.

Section folded_search.
Context `{Runtime}.

Lemma found_folded_spec (s chStr : list Z) :
  found_folded (charFreqMap s) chStr = true
  ↔ ∃ r, r ∈ s ∧ strings_EqualFold [r] chStr = true.
Proof.
  unfold found_folded. rewrite existsb_exists. split.
  - intros (k & Hk & Hc). apply list_elem_of_In, charFreqMap_keys in Hk as (r & Hr & ->).
    eauto.
  - intros (r & Hr & Hc). exists [r]. split; [| done].
    apply list_elem_of_In, charFreqMap_keys. eauto.
Qed.
End folded_search.

(** *** Claims on the analyzer *)

Section analyzer_claims.
Context `{Runtime}.

Lemma folded_ascii (s : gostring) :
  Forall (λ r, 0 ≤ r ≤ MaxASCII) s → folded s = ascii_lower <$> s.
Proof.
  unfold folded, strings_ToLower, strings_Map.
  induction 1 as [| r s Hr _ IH]; [done |].
  rewrite !fmap_cons, filter_cons, IH.
  unfold unicode_ToLower, ascii_lower, MaxASCII in *.
  rewrite (bool_decide_true (r ≤ 127)) by lia.
  case_bool_decide; rewrite decide_True by lia; done.
Qed.

Lemma isPalindrome_single (c : rune) : isPalindrome [c] = true.
Proof.
  apply isPalindrome_folded.
  unfold folded, strings_ToLower, strings_Map.
  rewrite fmap_cons, fmap_nil, filter_cons, filter_nil.
  by destruct (decide _).
Qed.

(** C3.  The palindrome flag of [analyzeString] is true exactly when the
    lowercased code-point sequence equals its reverse, and the loop that
    computes it always returns.  The empty string and every one-rune string
    are palindromes, "Racecar" is one and "hello" is not.  Nothing but the
    case is normalised: on ASCII text the compared sequence is the text
    itself with its capitals lowered, so "A man, a plan, a canal: Panama",
    with its blanks and punctuation, is no palindrome. *)
Theorem C3_isPalindrome_folded_mirror :
  (∀ s, isPalindrome_run s = Some (IsPalindrome (analyzeString s)))
  ∧ (∀ s, IsPalindrome (analyzeString s) = true ↔ folded s = reverse (folded s))
  ∧ IsPalindrome (analyzeString []) = true
  ∧ (∀ c, IsPalindrome (analyzeString [c]) = true)
  ∧ IsPalindrome (analyzeString (str "Racecar")) = true
  ∧ IsPalindrome (analyzeString (str "hello")) = false
  ∧ (∀ s, Forall (λ r, 0 ≤ r ≤ MaxASCII) s → folded s = ascii_lower <$> s)
  ∧ IsPalindrome (analyzeString (str "A man, a plan, a canal: Panama")) = false.
Proof.
  split_and!.
  - intros s. apply isPalindrome_run_total.
  - intros s. apply isPalindrome_folded.
  - by apply isPalindrome_folded.
  - intros c. apply isPalindrome_single.
  - apply isPalindrome_folded. rewrite folded_ascii; [done |].
    vm_compute. repeat constructor; discriminate.
  - apply not_true_is_false. intros Hp. apply isPalindrome_folded in Hp.
    rewrite folded_ascii in Hp; [discriminate Hp |].
    vm_compute. repeat constructor; discriminate.
  - apply folded_ascii.
  - apply not_true_is_false. intros Hp. apply isPalindrome_folded in Hp.
    rewrite folded_ascii in Hp; [discriminate Hp |].
    vm_compute. repeat constructor; discriminate.
Qed.

(** C8.  For a string whose number of code points fits an [int] (every Go
    string does), the counts of the character-frequency map add up to the
    number of code points of the string, and that number is the [length]
    property. *)
Theorem C8_frequencies_sum_to_length (s : gostring) :
  Z.of_nat (length s) ≤ max_int →
  sum_values (CharacterFrequencyMap (analyzeString s)) = Z.of_nat (length s)
  ∧ Length (analyzeString s) = Z.of_nat (length s)
  ∧ sum_values (CharacterFrequencyMap (analyzeString s)) = Length (analyzeString s).
Proof.
  intros Hlen. cbn [CharacterFrequencyMap Length analyzeString].
  split_and!; [by apply charFreqMap_counts | done | by apply charFreqMap_counts].
Qed.

(** What the two character searches compute on the record of a value [s]:
    the structured filter looks for the rune itself, the translated filter
    for a rune equal to it under case folding. *)
Lemma filter_ok_contains (s now : gostring) (c : rune) :
  filter_ok (contains_filter c) (record_of s now) = true ↔ c ∈ s.
Proof.
  unfold filter_ok, contains_filter, record_of. simpl.
  rewrite <- found_character_spec.
  by destruct (found_character _ _).
Qed.

(** C1.  The structured [containsCharacter] filter compares code points
    exactly (lines 252-263): the record of a value matches a filter for [c]
    if and only if [c] itself occurs in the value.  A filter for 'A' does
    not match the record of "banana", while the sibling evaluator of the
    translated filters (lines 403-419, [strings.EqualFold]) matches the same
    record for the text "A". *)
Theorem C1_structured_contains_is_exact :
  (∀ s now c, filter_ok (contains_filter c) (record_of s now) = true ↔ c ∈ s)
  ∧ (∀ now, filter_ok (contains_filter 65) (record_of (str "banana") now) = false)
  ∧ (∀ now, filter_ok (contains_filter 97) (record_of (str "banana") now) = true)
  ∧ (∀ now, parsed_ok {["contains_character" := DString (str "A")]}
              (record_of (str "banana") now) = true).
Proof.
  split_and!.
  - intros s now c. apply filter_ok_contains.
  - intros now. apply not_true_is_false. rewrite filter_ok_contains.
    vm_compute. intros Hin. repeat (apply elem_of_cons in Hin as [Heq | Hin]; [discriminate Heq |]).
    by apply elem_of_nil in Hin.
  - intros now. apply filter_ok_contains. vm_compute. repeat constructor.
  - intros now. unfold parsed_ok. simplify_map_eq.
    assert (found_folded (charFreqMap (str "banana")) (str "A") = true) as ->; [| done].
    apply found_folded_spec. exists 97. split; [vm_compute; repeat constructor |].
    reflexivity.
Qed.

End analyzer_claims.

(** *** The word count *)

Lemma allMatches_step (r : regex) (s : list Z) (pos : nat) (pe : option nat) :
  allMatches r s pos pe =
    if decide (pos ≤ length s)%nat then
      match doExecute r s pos with
      | None => []
      | Some (m0, m1, _) =>
          if decide (pos < m1)%nat then (m0, m1) :: allMatches r s m1 (Some m1)
          else (if bool_decide (Some m0 = pe) then [] else [(m0, m1)])
               ++ allMatches r s (S pos) (Some m1)
      end
    else [].
Proof.
  rewrite allMatches_equation_1.
  destruct (decide (pos ≤ length s)%nat); simpl; [| done].
  destruct (doExecute r s pos) as [[[m0 m1] cs] |]; simpl; [| done].
  by destruct (decide (pos < m1)%nat).
Qed.

Lemma TrimLeftFunc_length (f : Z → bool) (s : list Z) :
  (length (TrimLeftFunc f s) ≤ length s)%nat.
Proof.
  induction s as [| c s IH]; simpl; [done |]. destruct (f c); simpl; lia.
Qed.

Lemma TrimLeftFunc_drop (f : Z → bool) (s : list Z) :
  TrimLeftFunc f s = drop (length s - length (TrimLeftFunc f s)) s.
Proof.
  induction s as [| c s IH]; simpl; [done |].
  destruct (f c); simpl.
  - pose proof (TrimLeftFunc_length f s).
    replace (S (length s) - length (TrimLeftFunc f s))%nat
      with (S (length s - length (TrimLeftFunc f s))) by lia.
    exact IH.
  - by rewrite Nat.sub_diag.
Qed.

(** What is cut off on the left is white space, and what stays does not
    start with white space. *)
Lemma TrimLeftFunc_spec (f : Z → bool) (s : list Z) :
  ∃ sp, s = sp ++ TrimLeftFunc f s ∧ forallb f sp = true
        ∧ starts_with f (TrimLeftFunc f s) = false.
Proof.
  induction s as [| c s (sp & Hs & Hsp & Hhd)]; simpl.
  - by exists [].
  - destruct (f c) eqn:Hc.
    + exists (c :: sp). simpl. rewrite Hc, Hsp. by rewrite <- Hs.
    + exists []. by rewrite <- Hc.
Qed.

Lemma TrimRightFunc_spec (f : Z → bool) (s : list Z) :
  ∃ sp, s = TrimRightFunc f s ++ sp ∧ forallb f sp = true
        ∧ from_option f false (last (TrimRightFunc f s)) = false.
Proof.
  unfold TrimRightFunc.
  destruct (TrimLeftFunc_spec f (reverse s)) as (sp & Hs & Hsp & Hhd).
  exists (reverse sp). split_and!.
  - rewrite <- reverse_app, <- Hs. by rewrite reverse_involutive.
  - rewrite forallb_forall in Hsp. apply forallb_forall. intros x Hx.
    apply Hsp. apply list_elem_of_In. apply list_elem_of_In in Hx.
    by apply elem_of_reverse.
  - rewrite last_reverse. exact Hhd.
Qed.

(** The final continuation never fails, so [c+] takes all it can. *)
Lemma plus_rest_final (p : Z → bool) (s : list Z) :
  ∀ prev cs,
    plus_rest p prev s cs (λ _ s' cs', Some (s', cs')) = Some (TrimLeftFunc p s, cs).
Proof.
  induction s as [| c s IH]; intros prev cs; simpl; [done |].
  destruct (p c); [| done]. by rewrite IH.
Qed.

(** A run of [p] is counted once: inside a run, the count is that of the
    text after the run. *)
Lemma count_runs_in_run (p : Z → bool) (s : list Z) :
  count_runs p true s = count_runs p false (TrimLeftFunc p s).
Proof.
  induction s as [| c s IH]; simpl; [done |].
  destruct (p c) eqn:Hc; simpl; [done |]. by rewrite Hc.
Qed.

(** The leftmost match of [\s+] at or after a position: none when no run
    is left; otherwise it ends inside the text, after the position, and one
    run less is left after it. *)
Lemma find_from_reSpaces (u : list Z) :
  ∀ prev pos,
    match find_from reSpaces prev u pos with
    | None => count_runs class_s false u = 0%nat
    | Some (m0, m1, _) =>
        (pos ≤ m0 < m1)%nat ∧ (m1 ≤ pos + length u)%nat
        ∧ count_runs class_s false u
          = S (count_runs class_s false (drop (m1 - pos) u))
    end.
Proof.
  induction u as [| c u IH]; intros prev pos; [done |].
  cbn [find_from]. unfold match_here, reSpaces. cbn [rmatch count_runs].
  destruct (class_s c) eqn:Hc.
  - rewrite plus_rest_final.
    pose proof (TrimLeftFunc_length class_s u) as Hlen.
    cbn [length]. split; [lia |]. split; [lia |].
    rewrite count_runs_in_run. cbn [Nat.add]. f_equal. f_equal.
    replace (pos + (S (length u) - length (TrimLeftFunc class_s u)) - pos)%nat
      with (S (length u - length (TrimLeftFunc class_s u))) by lia.
    cbn [drop]. apply TrimLeftFunc_drop.
  - fold reSpaces. specialize (IH (Some c) (S pos)).
    change (rmatch reSpaces ?a ?b ∅ ?k) with (match_here reSpaces a b) in IH.
    destruct (find_from reSpaces (Some c) u (S pos)) as [[[m0 m1] cs] |]; [| done].
    destruct IH as (Hm0 & Hm1 & Hcount). cbn [length].
    split; [lia |]. split; [lia |].
    rewrite Hcount. f_equal. f_equal.
    by replace (m1 - pos)%nat with (S (m1 - S pos)) by lia.
Qed.

(** The matches of [\s+] in a text are its runs of [\s], each inside the
    text and not empty. *)
Lemma allMatches_reSpaces (t : list Z) (n : nat) :
  ∀ pos pe, (S (length t) - pos ≤ n)%nat →
    length (allMatches reSpaces t pos pe) = count_runs class_s false (drop pos t)
    ∧ Forall (λ m, (m.1 < m.2 ≤ length t)%nat) (allMatches reSpaces t pos pe).
Proof.
  induction n as [| n IH]; intros pos pe Hn; rewrite allMatches_step.
  - rewrite decide_False by lia. rewrite drop_ge by lia. by split.
  - destruct (decide (pos ≤ length t)%nat) as [Hpos |];
      [| rewrite drop_ge by lia; by split].
    unfold doExecute.
    pose proof (find_from_reSpaces (drop pos t) (last (take pos t)) pos) as Hfind.
    rewrite length_drop in Hfind.
    destruct (find_from _ _ _ _) as [[[m0 m1] cs] |]; [| by split].
    destruct Hfind as (Hm0 & Hm1 & Hcount).
    rewrite decide_True by lia.
    destruct (IH m1 (Some m1)) as [Hlen Hall]; [lia |].
    split.
    + cbn [length]. rewrite Hlen, Hcount, drop_drop.
      by replace (pos + (m1 - pos))%nat with m1 by lia.
    + constructor; [simpl; lia | done].
Qed.

(** [Split] on matches that are not empty and lie inside a non-empty text:
    one piece more than there are matches. *)
Lemma split_loop_length (t : list Z) (ms : list (nat * nat)) :
  ∀ beg end_,
    Forall (λ m, (m.1 < m.2 ≤ length t)%nat) ms → (end_ < length t)%nat →
    length (split_loop t ms beg end_).1.1 = length ms
    ∧ ((split_loop t ms beg end_).2 < length t)%nat.
Proof.
  induction ms as [| [m0 m1] ms IH]; intros beg end_ Hms Hend; [done |].
  apply Forall_cons in Hms as [Hm Hms]. simpl in Hm.
  cbn [split_loop].
  destruct (IH m1 m0 Hms) as [Hlen Hlt]; [lia |].
  destruct (split_loop t ms m1 m0) as [[strings beg'] end'].
  rewrite bool_decide_true by lia. simpl in *. split; [by rewrite Hlen | done].
Qed.

Lemma Split_reSpaces_length (t : list Z) :
  t ≠ [] → length (Split reSpaces t) = S (count_runs class_s false t).
Proof.
  intros Ht. unfold Split. rewrite bool_decide_false by done.
  destruct (allMatches_reSpaces t (S (length t)) 0 None) as [Hlen Hall]; [lia |].
  assert (0 < length t)%nat by (destruct t; [done | simpl; lia]).
  destruct (split_loop_length t _ 0%nat 0%nat Hall) as [Hsl Hend]; [done |].
  destruct (split_loop t _ 0 0) as [[strings beg] end_]. simpl in *.
  rewrite bool_decide_true by lia.
  rewrite length_app, Hsl, Hlen, drop_0. simpl. lia.
Qed.

(** Tokens and separators alternate.  On a text where [\s] is all the
    white space there is, that does not end in white space: after a token
    character there are as many further tokens as runs of [\s], and after a
    blank one token more than further runs. *)
Lemma tokens_and_runs (u : list Z) :
  Forall (λ r, unicode_IsSpace r = class_s r) u →
  from_option unicode_IsSpace false (last u) = false →
  count_tokens true u = count_runs class_s false u
  ∧ (u ≠ [] → count_tokens false u = S (count_runs class_s true u)).
Proof.
  induction 1 as [| c u Hc Hu IH]; intros Hlast; [done |].
  assert (Hlast' : u ≠ [] → from_option unicode_IsSpace false (last u) = false).
  { intros Hne. destruct u as [| c' u]; [done |]. by rewrite last_cons_cons in Hlast. }
  cbn [count_tokens count_runs]. rewrite Hc.
  destruct u as [| c' u].
  - simpl in Hlast. rewrite <- Hc, Hlast. by split.
  - destruct (IH (Hlast' ltac:(done))) as [IH1 IH2].
    destruct (class_s c); split; intros; rewrite ?IH1, ?IH2 by done; done.
Qed.

Lemma count_tokens_trim_left (s : list Z) :
  count_tokens false (TrimLeftFunc unicode_IsSpace s) = count_tokens false s.
Proof.
  induction s as [| c s IH]; simpl; [done |].
  destruct (unicode_IsSpace c) eqn:Hc; [done |]. simpl. by rewrite Hc.
Qed.

Lemma count_tokens_blanks (b : bool) (v sp : list Z) :
  forallb unicode_IsSpace sp = true → count_tokens b (v ++ sp) = count_tokens b v.
Proof.
  intros Hsp. revert b. induction v as [| c v IH]; intros b; simpl.
  - revert b. induction sp as [| c sp IH]; intros b; simpl; [done |].
    simpl in Hsp. apply andb_true_iff in Hsp as [-> Hsp]. by apply IH.
  - destruct (unicode_IsSpace c); by rewrite IH.
Qed.

(** The word count of the code, by the runs of [\s] of the trimmed text. *)
Lemma wordCount_runs (s : list Z) :
  wordCount s =
    if bool_decide (strings_TrimSpace s = []) then 0
    else Z.of_nat (S (count_runs class_s false (strings_TrimSpace s))).
Proof.
  unfold wordCount. case_bool_decide; [done |].
  by rewrite Split_reSpaces_length.
Qed.

(** On a text whose white space is all in the class [\s] of the pattern,
    the word count of the code is the number of white-space-delimited
    tokens. *)
Lemma wordCount_ascii_white_space (s : list Z) :
  Forall (λ r, unicode_IsSpace r = class_s r) s →
  wordCount s = spec_word_count s.
Proof.
  intros Hs. rewrite wordCount_runs. unfold spec_word_count, strings_TrimSpace.
  destruct (TrimLeftFunc_spec unicode_IsSpace s) as (sp1 & Hs1 & Hsp1 & Hhd).
  set (u := TrimLeftFunc unicode_IsSpace s) in *.
  destruct (TrimRightFunc_spec unicode_IsSpace u) as (sp2 & Hu & Hsp2 & Hlast).
  set (t := TrimRightFunc unicode_IsSpace u) in *.
  assert (Hcount : count_tokens false s = count_tokens false t).
  { rewrite <- count_tokens_trim_left. fold u. rewrite Hu.
    by apply count_tokens_blanks. }
  assert (Ht : Forall (λ r, unicode_IsSpace r = class_s r) t).
  { rewrite Hs1, Hu in Hs. apply Forall_app in Hs as [_ Hs].
    by apply Forall_app in Hs as [Hs _]. }
  rewrite Hcount. case_bool_decide as Hnil; [by rewrite Hnil |].
  f_equal. destruct t as [| c t]; [done |].
  assert (Hc : unicode_IsSpace c = false).
  { rewrite Hu in Hhd. exact Hhd. }
  apply Forall_cons in Ht as [Hcs Ht].
  cbn [count_tokens count_runs]. rewrite <- Hcs, Hc. cbn [Nat.add]. f_equal.
  destruct t as [| c' t]; [done |].
  rewrite last_cons_cons in Hlast.
  symmetry. by apply tokens_and_runs.
Qed.

Lemma class_s_IsSpace (r : Z) : class_s r = true → unicode_IsSpace r = true.
Proof.
  unfold class_s, unicode_IsSpace, MaxLatin1. intros Hr%bool_decide_eq_true.
  repeat (apply elem_of_cons in Hr as [-> | Hr]); try reflexivity.
  by apply elem_of_nil in Hr.
Qed.

Section word_count_claim.
Context `{Runtime}.

(** C4.  [wordCount] trims Unicode white space but splits on the ASCII
    class [\s] only.  A no-break space (U+00A0) between two words does not
    separate them, and one that stands alone between blanks is counted as a
    word, although the same character alone is white space to the trimming
    step.  On every text whose white space is all in the class [\s] the
    count is the number of white-space-delimited tokens, and the three
    examples of the specification hold. *)
Theorem C4_wordCount_splits_on_ascii_only :
  WordCount (analyzeString (str "a" ++ [160] ++ str "b")) = 1
  ∧ spec_word_count (str "a" ++ [160] ++ str "b") = 2
  ∧ WordCount (analyzeString (str "a " ++ [160] ++ str " b")) = 3
  ∧ spec_word_count (str "a " ++ [160] ++ str " b") = 2
  ∧ WordCount (analyzeString [160]) = 0
  ∧ (∀ s, Forall (λ r, unicode_IsSpace r = true → class_s r = true) s →
       WordCount (analyzeString s) = spec_word_count s)
  ∧ WordCount (analyzeString []) = 0
  ∧ WordCount (analyzeString (str "   ")) = 0
  ∧ WordCount (analyzeString (str "  a   b  ")) = 2.
Proof.
  split_and!;
    [vm_compute; reflexivity .. | | vm_compute; reflexivity
    | vm_compute; reflexivity | vm_compute; reflexivity].
  intros s Hs. cbn [WordCount analyzeString]. apply wordCount_ascii_white_space.
  eapply Forall_impl; [exact Hs |]. intros r Hr. simpl in Hr.
  destruct (class_s r) eqn:Hc; [by apply class_s_IsSpace |].
  destruct (unicode_IsSpace r); [| done]. specialize (Hr eq_refl). congruence.
Qed.

End word_count_claim.

(** *** The handlers and the server *)

Section server_properties.
Context `{Runtime}.

Lemma post_check_create (m : gmap (list Z) StoredString) (v : gostring) :
  post_check m (create v) =
    if bool_decide (is_Some (m !! computeHash v)) then
      inl (writeJSON StatusConflict (BError "string already exists in the system"))
    else inr (v, analyzeString v, computeHash v).
Proof. reflexivity. Qed.

(** A creation that goes on past the existence check carries the analysis
    of its value and saw no record under its id. *)
Lemma post_check_inr (m : gmap (list Z) StoredString) (r : post_request)
    (val : gostring) (props : Properties) (id : gostring) :
  post_check m r = inr (val, props, id) →
  props = analyzeString val ∧ id = computeHash val ∧ m !! id = None.
Proof.
  unfold post_check. case_bool_decide; [done |].
  destruct (post_body r) as [b |]; [| done].
  destruct (validateCreateBody b) as [v | [c msg]]; [| done].
  case_bool_decide as Hex; [done |].
  intros [= <- <- <-]. split_and!; [done | done |].
  by apply eq_None_not_Some.
Qed.

(** An answer given before the record is built reports an error. *)
Lemma post_check_inl (m : gmap (list Z) StoredString) (r : post_request)
    (resp : response) :
  post_check m r = inl resp → is_error resp = true.
Proof.
  unfold post_check. case_bool_decide; [by intros [= <-] |].
  destruct (post_body r) as [b |]; [| by intros [= <-]].
  unfold validateCreateBody.
  destruct (body_Value b) as [[n | b' | s | f | t] |]; try by intros [= <-].
  case_bool_decide; [by intros [= <-] | done].
Qed.

Lemma deleteStringHandler_error (m : gmap (list Z) StoredString) (r : path_request) :
  is_error (deleteStringHandler m r).2 = true → (deleteStringHandler m r).1 = m.
Proof.
  unfold deleteStringHandler. case_bool_decide; [done |].
  destruct (path_decoded r) as [d |]; [| done].
  case_bool_decide; [done |].
  by destruct (m !! computeHash d).
Qed.

Lemma postStringsHandler_error (m : gmap (list Z) StoredString) (r : post_request)
    (now : gostring) :
  is_error (postStringsHandler m r now).2 = true → (postStringsHandler m r now).1 = m.
Proof.
  unfold postStringsHandler. by destruct (post_check m r).
Qed.

Lemma snoc_not_self {A} (l : list A) (x : A) : l ≠ l ++ [x].
Proof.
  intros Heq. apply (f_equal length) in Heq. rewrite length_app in Heq.
  simpl in Heq. lia.
Qed.

(** An event that answers with an error leaves the map as it was. *)
Lemma exec_error_keeps_store (s : server) (e : event) (resp : response) :
  answers (exec s e) = answers s ++ [resp] → is_error resp = true →
  store (exec s e) = store s.
Proof.
  destruct e as [r now | i | r | r | r | r]; simpl.
  - by destruct (post_check (store s) r).
  - destruct (waiting s !! i) as [item |]; [| done]. simpl.
    intros Heq%app_inv_head. by injection Heq as <-.
  - done.
  - done.
  - done.
  - destruct (deleteStringHandler (store s) r) as [m resp'] eqn:Hd. simpl.
    intros Heq%app_inv_head. injection Heq as ->. intros Herr.
    pose proof (deleteStringHandler_error (store s) r) as Hkeep.
    rewrite Hd in Hkeep. by apply Hkeep.
Qed.

Lemma server_inv_init : server_inv init.
Proof. split; [by intros k item Hk | constructor]. Qed.

Lemma server_inv_exec (s : server) (e : event) :
  server_inv s → server_inv (exec s e).
Proof.
  intros [Hst Hw].
  destruct e as [r now | i | r | r | r | r]; simpl; try by split.
  - destruct (post_check (store s) r) as [resp | [[val props] id]] eqn:Hc; [by split |].
    apply post_check_inr in Hc as (-> & -> & _).
    split; [done |]. simpl. apply Forall_app. split; [done |].
    by repeat constructor.
  - destruct (waiting s !! i) as [item |] eqn:Hi; [| by split]. simpl.
    pose proof (Forall_lookup_1 _ _ _ _ Hw Hi) as Hitem.
    split; simpl.
    + intros k item' Hk. destruct (decide (ID item = k)) as [<- | Hne].
      * rewrite lookup_insert_eq in Hk. by injection Hk as <-.
      * rewrite lookup_insert_ne in Hk by done. by apply Hst.
    + by apply Forall_delete.
  - destruct (deleteStringHandler (store s) r) as [m resp] eqn:Hd.
    split; [| done]. simpl. intros k item Hk. apply Hst.
    revert Hd. unfold deleteStringHandler.
    repeat (case_bool_decide || case_match); intros [= <- <-]; try done.
    by apply lookup_delete_Some in Hk as [_ Hk].
Qed.

Lemma run_snoc (s : server) (es : list event) (e : event) :
  run s (es ++ [e]) = exec (run s es) e.
Proof. unfold run. by rewrite foldl_app. Qed.

Lemma run_cons (s : server) (e : event) (es : list event) :
  run s (e :: es) = run (exec s e) es.
Proof. reflexivity. Qed.

Lemma reachable_inv (s : server) : reachable s → server_inv s.
Proof.
  intros [es ->]. induction es as [| e es IH] using rev_ind.
  - apply server_inv_init.
  - rewrite run_snoc. by apply server_inv_exec.
Qed.

(** Content addressing: in a reachable state two records with the same
    value are the same entry of the map. *)
Lemma one_record_per_value (s : server) (k1 k2 : gostring) (i1 i2 : StoredString) :
  reachable s → store s !! k1 = Some i1 → store s !! k2 = Some i2 →
  Value i1 = Value i2 → k1 = k2.
Proof.
  intros [Hst _]%reachable_inv H1 H2 Hv.
  destruct (Hst _ _ H1) as [[_ Hid1] <-], (Hst _ _ H2) as [[_ Hid2] <-].
  by rewrite Hid1, Hid2, Hv.
Qed.

Lemma exec_arrives_fresh (s : server) (v now : gostring) :
  store s !! computeHash v = None →
  exec s (PostArrives (create v) now)
  = {| store := store s; waiting := waiting s ++ [record_of v now];
       answers := answers s |}.
Proof.
  intros Hv. unfold exec. rewrite post_check_create.
  rewrite bool_decide_false; [done |]. rewrite Hv. by intros [? ?].
Qed.

Lemma exec_arrives_taken (s : server) (v now : gostring) :
  is_Some (store s !! computeHash v) →
  exec s (PostArrives (create v) now)
  = {| store := store s; waiting := waiting s;
       answers := answers s
         ++ [writeJSON StatusConflict (BError "string already exists in the system")] |}.
Proof.
  intros Hv. unfold exec. rewrite post_check_create.
  by rewrite bool_decide_true.
Qed.

Lemma exec_stores (s : server) (i : nat) (item : StoredString) :
  waiting s !! i = Some item →
  exec s (PostStores i)
  = {| store := <[ID item := item]> (store s); waiting := delete i (waiting s);
       answers := answers s ++ [writeJSON StatusCreated (BItem item)] |}.
Proof. intros Hi. unfold exec. by rewrite Hi. Qed.

(** C2.  The existence check (read lock, lines 127-129) and the insert
    (write lock, lines 141-143) of [postStringsHandler] are two critical
    sections.  When two creations of the same value both pass the check
    before either stores, both store and both are answered 201 Created: no
    attempt is told that the record exists.  The map still ends with one
    record for the value, and when the first creation finishes before the
    second arrives the second is answered 409 Conflict. *)
Theorem C2_concurrent_creates_both_created (v now1 now2 : gostring) :
  code <$> answers (run init [PostArrives (create v) now1;
                               PostArrives (create v) now2;
                               PostStores 0; PostStores 0])
    = [StatusCreated; StatusCreated]
  ∧ store (run init [PostArrives (create v) now1; PostArrives (create v) now2;
                     PostStores 0; PostStores 0])
    = {[computeHash v := record_of v now2]}
  ∧ code <$> answers (run init [PostArrives (create v) now1; PostStores 0;
                                 PostArrives (create v) now2])
    = [StatusCreated; StatusConflict]
  ∧ (∀ s k1 k2 i1 i2, reachable s → store s !! k1 = Some i1 →
       store s !! k2 = Some i2 → Value i1 = Value i2 → k1 = k2).
Proof.
  assert (Hrace : run init [PostArrives (create v) now1; PostArrives (create v) now2;
                            PostStores 0; PostStores 0]
                  = {| store := {[computeHash v := record_of v now2]};
                       waiting := [];
                       answers := [writeJSON StatusCreated (BItem (record_of v now1));
                                   writeJSON StatusCreated (BItem (record_of v now2))] |}).
  { rewrite run_cons, exec_arrives_fresh by done. proj.
    rewrite run_cons, exec_arrives_fresh by done. proj.
    rewrite run_cons, (exec_stores _ 0%nat (record_of v now1)) by done. proj.
    rewrite run_cons, (exec_stores _ 0%nat (record_of v now2)) by done. proj.
    by rewrite insert_insert_eq. }
  split_and!.
  - by rewrite Hrace.
  - by rewrite Hrace.
  - rewrite run_cons, exec_arrives_fresh by done. proj.
    rewrite run_cons, (exec_stores _ 0%nat (record_of v now1)) by done. proj.
    rewrite run_cons, exec_arrives_taken; [done |]. proj.
    rewrite lookup_insert_eq. by eexists.
  - intros s k1 k2 i1 i2. apply one_record_per_value.
Qed.

(** C10.  The unique-character count of [analyzeString] is the number of
    keys of its character-frequency map, which is the number of distinct
    code points of the value; every record of every reachable state of the
    server satisfies the equality. *)
Theorem C10_unique_characters_counts_keys :
  (∀ s, UniqueCharacters (analyzeString s)
        = Z.of_nat (size (dom (CharacterFrequencyMap (analyzeString s)))))
  ∧ (∀ s, UniqueCharacters (analyzeString s) = Z.of_nat (length (remove_dups s)))
  ∧ (∀ st k item, reachable st → store st !! k = Some item →
       UniqueCharacters (Props item)
       = Z.of_nat (size (dom (CharacterFrequencyMap (Props item))))).
Proof.
  assert (Hkeys : ∀ s, UniqueCharacters (analyzeString s)
                       = Z.of_nat (size (dom (CharacterFrequencyMap (analyzeString s))))).
  { intros s. simpl. by rewrite size_dom. }
  split_and!.
  - exact Hkeys.
  - intros s. simpl. by rewrite charFreqMap_size.
  - intros st k item [Hst _]%reachable_inv Hk.
    destruct (Hst _ _ Hk) as [[-> _] _]. apply Hkeys.
Qed.

(** C7.  An operation that reports an error leaves the store as it was:
    every event of the server that answers with an error status keeps the
    map, and so does [postStringsHandler] run on its own, in particular when
    validation fails and when the record already exists, and
    [deleteStringHandler].  A query that the translator refuses is answered
    with the message of that very error, each error having its own message,
    and with no list of records. *)
Theorem C7_errors_leave_store_unchanged :
  (∀ s e resp, answers (exec s e) = answers s ++ [resp] → is_error resp = true →
     store (exec s e) = store s)
  ∧ (∀ m r now, is_error (postStringsHandler m r now).2 = true →
       (postStringsHandler m r now).1 = m)
  ∧ (∀ m r now b c msg, post_method r = POST → post_body r = Some b →
       validateCreateBody b = Err (c, msg) →
       postStringsHandler m r now = (m, writeJSON c (BError msg))
       ∧ is_error (writeJSON c (BError msg)) = true)
  ∧ (∀ m v now, is_Some (m !! computeHash v) →
       postStringsHandler m (create v) now
       = (m, writeJSON StatusConflict (BError "string already exists in the system")))
  ∧ (∀ m r, is_error (deleteStringHandler m r).2 = true →
       (deleteStringHandler m r).1 = m)
  ∧ (∀ m r err, nl_method r = GET → nl_query r ≠ [] →
       parseNaturalLanguage (nl_query r) = Err err →
       naturalLanguageHandler m r = writeJSON StatusBadRequest (BError (Error err)))
  ∧ (∀ e1 e2, Error e1 = Error e2 → e1 = e2).
Proof.
  split_and!.
  - apply exec_error_keeps_store.
  - apply postStringsHandler_error.
  - intros m r now b c msg Hm Hb Hv.
    unfold postStringsHandler, post_check. rewrite Hm, Hb, Hv.
    split; [done |].
    revert Hv. unfold validateCreateBody.
    by destruct (body_Value b) as [[] |]; intros [= <- <-].
  - intros m v now Hv. unfold postStringsHandler.
    by rewrite post_check_create, bool_decide_true.
  - apply deleteStringHandler_error.
  - intros m r err Hm Hq Herr. unfold naturalLanguageHandler.
    rewrite Hm, (bool_decide_false (GET ≠ GET)) by (intros Hne; by apply Hne).
    rewrite bool_decide_false by done. by rewrite Herr.
  - by intros [] [].
Qed.

End server_properties.

(** *** The matcher *)

(** A match found by [c+] is a match of what follows it, further on. *)
Lemma plus_rest_Some (p : Z → bool) (s : list Z) :
  ∀ prev cs k r,
    plus_rest p prev s cs k = Some r →
    ∃ prev' s', s' `suffix_of` s ∧ k prev' s' cs = Some r.
Proof.
  induction s as [| c s IH]; intros prev cs k r; simpl.
  - eauto.
  - destruct (p c); [| eauto].
    destruct (plus_rest p (Some c) s cs k) as [r' |] eqn:Hrest.
    + intros [= <-]. apply IH in Hrest as (prev' & s' & Hsuf & Hk).
      exists prev', s'. split; [by apply suffix_cons_r | done].
    + eauto.
Qed.

Lemma consumed_one (c : Z) (s : list Z) : consumed (c :: s) s = [c].
Proof.
  unfold consumed. simpl length.
  by replace (S (length s) - length s)%nat with 1%nat by lia.
Qed.

(** A match somewhere is a match at some position. *)
Lemma find_from_Some (r : regex) (s : list Z) :
  ∀ prev pos m0 m1 cs,
    find_from r prev s pos = Some (m0, m1, cs) →
    ∃ prev' s0 s', s0 `suffix_of` s ∧ match_here r prev' s0 = Some (s', cs).
Proof.
  induction s as [| c s IH]; intros prev pos m0 m1 cs; simpl.
  - destruct (match_here r prev []) as [[s' cs'] |] eqn:Hm; [| done].
    intros [= _ _ <-]. eauto.
  - destruct (match_here r prev (c :: s)) as [[s' cs'] |] eqn:Hm.
    + intros [= _ _ <-]. eauto.
    + intros (prev' & s0 & s' & Hsuf & Hm')%IH.
      exists prev', s0, s'. split; [by apply suffix_cons_r | done].
Qed.


(** One alternative of [reContains]: when it matches, its group holds the
    letter and no other group is set. *)
Lemma contains_alternative (l : list Z) (n : nat) (prev : option Z) (s : list Z)
    (res : list Z * gmap nat (list Z)) :
  rmatch (RCat (RLit l) (RCat (RPlus class_s) (RGroup n (RClass class_alpha))))
    prev s ∅ (λ _ s' cs, Some (s', cs)) = Some res →
  ∃ c, res.2 = {[n := [c]]}.
Proof.
  simpl. destruct (strip_prefix l s) as [s1 |]; [| done].
  destruct s1 as [| c1 s2]; [done |].
  destruct (class_s c1); [| done].
  intros (prev' & s' & _ & Hk)%plus_rest_Some.
  destruct s' as [| c s'']; [done |].
  destruct (class_alpha c); [| done].
  injection Hk as <-. exists c. simpl. by rewrite consumed_one.
Qed.

Lemma rmatch_alt_Some (a b : regex) (prev : option Z) (s : list Z)
    (cs : gmap nat (list Z)) k (res : list Z * gmap nat (list Z)) :
  rmatch (RAlt a b) prev s cs k = Some res →
  rmatch a prev s cs k = Some res ∨ rmatch b prev s cs k = Some res.
Proof.
  simpl. destruct (rmatch a prev s cs k); [intros [= <-]; by left | by right].
Qed.

Lemma reContains_captures (prev : option Z) (s s' : list Z) (cs : gmap nat (list Z)) :
  match_here reContains prev s = Some (s', cs) →
  ∃ n c, n ∈ [1; 2; 3; 4]%nat ∧ cs = {[n := [c]]}.
Proof.
  unfold match_here, reContains. intros Hm.
  repeat (apply rmatch_alt_Some in Hm as [Hm | Hm]).
  all: apply contains_alternative in Hm as [c Hc]; simpl in Hc;
    eexists _, c; (split; [| exact Hc]); set_solver.
Qed.

(** When [reContains] matches, the submatches are five texts and one of
    the four groups is not empty: the loop of lines 321-326 always finds
    its letter. *)
Lemma reContains_submatch (q : list Z) :
  FindStringSubmatch reContains q = []
  ∨ ∃ m i mi, FindStringSubmatch reContains q = m ∧ length m = 5%nat
      ∧ list_find (λ mi : list Z, mi ≠ []) (take 4 (drop 1 m)) = Some (i, mi).
Proof.
  unfold FindStringSubmatch, doExecute.
  destruct (find_from _ _ _ _) as [[[m0 m1] cs] |] eqn:Hfind; [| by left].
  right. apply find_from_Some in Hfind as (prev' & s0 & s' & _ & Hm).
  apply reContains_captures in Hm as (n & c & Hn & ->).
  eexists _. 
  repeat (apply elem_of_cons in Hn as [-> | Hn]);
    [ exists 0%nat, [c] | exists 1%nat, [c] | exists 2%nat, [c] | exists 3%nat, [c]
    | by apply elem_of_nil in Hn ];
    (split; [reflexivity |]); split; reflexivity.
Qed.

(** *** Prefixes and occurrences *)

Lemma strip_prefix_app (l l' s : list Z) :
  strip_prefix (l ++ l') s = strip_prefix l s ≫= strip_prefix l'.
Proof.
  revert s. induction l as [| a l IH]; intros s; simpl.
  - by destruct l'.
  - destruct s as [| b s]; [done |]. by case_bool_decide.
Qed.

Lemma strip_prefix_Some (l s s' : list Z) :
  strip_prefix l s = Some s' ↔ s = l ++ s'.
Proof.
  revert s. induction l as [| a l IH]; intros s; simpl.
  - naive_solver.
  - destruct s as [| b s]; [naive_solver |].
    case_bool_decide as Hab; [subst b; rewrite IH |]; naive_solver.
Qed.

(** [strings.Contains] finds the phrase exactly when it occurs. *)
Lemma strings_Contains_spec (s l : list Z) :
  strings_Contains s l = true ↔ ∃ pre post, s = pre ++ l ++ post.
Proof.
  induction s as [| c s IH]; simpl.
  - destruct (strip_prefix l []) as [s' |] eqn:Hl.
    + apply strip_prefix_Some in Hl. split; [| done]. intros _. by exists [], s'.
    + split; [done |]. intros (pre & post & Heq).
      destruct pre as [| c pre]; [| done].
      apply (strip_prefix_Some l [] post) in Heq. congruence.
  - destruct (strip_prefix l (c :: s)) as [s' |] eqn:Hl.
    + apply strip_prefix_Some in Hl. split; [| done]. intros _. by exists [], s'.
    + rewrite IH. split.
      * intros (pre & post & ->). by exists (c :: pre), post.
      * intros (pre & post & Heq). destruct pre as [| c' pre].
        { apply (strip_prefix_Some l (c :: s) post) in Heq. congruence. }
        injection Heq as -> ->. eauto.
Qed.

(** A text that contains a phrase contains every part of the phrase. *)
Lemma strings_Contains_part (s a l b : list Z) :
  strings_Contains s (a ++ l ++ b) = true → strings_Contains s l = true.
Proof.
  rewrite !strings_Contains_spec. intros (pre & post & ->).
  exists (pre ++ a), (b ++ post). by rewrite <- !(assoc_L app).
Qed.

Lemma strings_Contains_prefix (s l l' : list Z) :
  strings_Contains s (l ++ l') = true → strings_Contains s l = true.
Proof. apply (strings_Contains_part s [] l l'). Qed.


(** *** Where the patterns can match *)


Lemma literal_led_None (l : list Z) (r : regex) (prev : option Z) (s : list Z)
    (cs : gmap nat (list Z)) k :
  strip_prefix l s = None → rmatch (RCat (RLit l) r) prev s cs k = None.
Proof. simpl. by intros ->. Qed.





Lemma numeral_found_match (re : regex) (q : list Z) :
  is_Some (numeral_found re q) → FindStringSubmatch re q ≠ [].
Proof. unfold numeral_found. by destruct (FindStringSubmatch re q); intros [? ?]. Qed.


(** *** White space *)

Lemma TrimLeftFunc_all (f : Z → bool) (s : list Z) :
  Forall (λ r, f r = true) s → TrimLeftFunc f s = [].
Proof. induction 1 as [| r s Hr _ IH]; simpl; [done |]. by rewrite Hr. Qed.

Lemma strings_TrimSpace_blank (s : list Z) :
  Forall (λ r, unicode_IsSpace r = true) s → strings_TrimSpace s = [].
Proof.
  intros Hs. unfold strings_TrimSpace. by rewrite TrimLeftFunc_all.
Qed.

(** *** The rules of the translator *)

Lemma rule_longer_numeral (re : regex) (parsed : gmap string dynamic) (q : list Z) :
  rule_longer re parsed q
  = match numeral_found re q with
    | Some n => <["min_length" := DInt (wrap (n + 1))]> parsed
    | None => parsed
    end.
Proof.
  unfold rule_longer, numeral_found.
  by destruct (FindStringSubmatch re q) as [| w [| m1 [| ? ?]]].
Qed.

Lemma rule_n_words_numeral (parsed : gmap string dynamic) (q : list Z) :
  parsed !! "word_count" = None →
  rule_n_words parsed q
  = match numeral_found reWords q with
    | Some n => <["word_count" := DInt n]> parsed
    | None => parsed
    end.
Proof.
  intros Hwc. unfold rule_n_words, numeral_found. rewrite Hwc.
  by destruct (FindStringSubmatch reWords q) as [| w [| m1 [| ? ?]]].
Qed.

Section translator.
Context `{Runtime}.

Lemma rule_contains_match (parsed : gmap string dynamic) (q : list Z) :
  (FindStringSubmatch reContains q = [] ∧ rule_contains parsed q = parsed)
  ∨ (FindStringSubmatch reContains q ≠ []
     ∧ ∃ v, rule_contains parsed q = <["contains_character" := v]> parsed).
Proof.
  unfold rule_contains.
  destruct (reContains_submatch q) as [-> | (m & i & mi & -> & Hlen & Hfind)].
  - left. by rewrite bool_decide_false by (simpl; lia).
  - right. split; [by destruct m |].
    rewrite bool_decide_true by lia. rewrite Hfind. eauto.
Qed.

(** Each rule leaves every key but its own as it was. *)
Lemma rule_single_word_lookup (parsed : gmap string dynamic) (q : list Z) (k : string) :
  k ≠ "word_count" → rule_single_word parsed q !! k = parsed !! k.
Proof.
  intros Hk. unfold rule_single_word.
  destruct (_ || _ || _); [by rewrite lookup_insert_ne | done].
Qed.

Lemma rule_palindrome_lookup (parsed : gmap string dynamic) (q : list Z) (k : string) :
  k ≠ "is_palindrome" → rule_palindrome parsed q !! k = parsed !! k.
Proof.
  intros Hk. unfold rule_palindrome.
  destruct (strings_Contains _ _); [by rewrite lookup_insert_ne | done].
Qed.

Lemma rule_longer_lookup (re : regex) (parsed : gmap string dynamic) (q : list Z)
    (k : string) :
  k ≠ "min_length" → rule_longer re parsed q !! k = parsed !! k.
Proof.
  intros Hk. rewrite rule_longer_numeral.
  destruct (numeral_found re q); [by rewrite lookup_insert_ne | done].
Qed.

Lemma rule_contains_lookup (parsed : gmap string dynamic) (q : list Z) (k : string) :
  k ≠ "contains_character" → rule_contains parsed q !! k = parsed !! k.
Proof.
  intros Hk.
  destruct (rule_contains_match parsed q) as [[_ ->] | [_ [v ->]]];
    [done | by rewrite lookup_insert_ne].
Qed.

Lemma rule_first_vowel_lookup (parsed : gmap string dynamic) (q : list Z) (k : string) :
  k ≠ "contains_character" → rule_first_vowel parsed q !! k = parsed !! k.
Proof.
  intros Hk. unfold rule_first_vowel.
  destruct (_ || _); [by rewrite lookup_insert_ne | done].
Qed.

Lemma rule_n_words_lookup (parsed : gmap string dynamic) (q : list Z) (k : string) :
  k ≠ "word_count" → rule_n_words parsed q !! k = parsed !! k.
Proof.
  intros Hk. unfold rule_n_words.
  destruct (parsed !! "word_count"); [done |].
  destruct (FindStringSubmatch reWords q) as [| w [| m1 [| ? ?]]]; try done.
  destruct (Atoi m1); [by rewrite lookup_insert_ne | done].
Qed.

(** No rule writes the key [max_length]. *)
Lemma apply_rules_no_max_length (q : list Z) :
  apply_rules q !! "max_length" = None.
Proof.
  unfold apply_rules.
  rewrite rule_n_words_lookup, rule_first_vowel_lookup, rule_contains_lookup,
    !rule_longer_lookup, rule_palindrome_lookup, rule_single_word_lookup by done.
  apply lookup_empty.
Qed.

Lemma conflicting_apply_rules (q : list Z) : conflicting (apply_rules q) = false.
Proof.
  unfold conflicting. rewrite apply_rules_no_max_length.
  by destruct (apply_rules q !! "min_length") as [[] |].
Qed.

(** The translator, by cases on the text it reads. *)
Lemma parseNaturalLanguage_cases (query : list Z) :
  parseNaturalLanguage query =
    if bool_decide (normalize query = []) then Err ErrEmptyQuery
    else if bool_decide (apply_rules (normalize query) = ∅) then Err ErrUnparseable
    else Ok (apply_rules (normalize query)).
Proof.
  unfold parseNaturalLanguage. case_bool_decide; [done |].
  rewrite conflicting_apply_rules.
  case_bool_decide as Hsz.
  - apply map_size_empty_inv in Hsz. by rewrite bool_decide_true.
  - rewrite bool_decide_false; [done |]. intros Hempty. apply Hsz.
    rewrite Hempty. apply map_size_empty.
Qed.








End translator.

(** *** The greedy repetition *)

Lemma last_cons_from (prev : option Z) (c : Z) (l : list Z) :
  from_option Some prev (last (c :: l)) = from_option Some (Some c) (last l).
Proof.
  destruct l as [| c' l]; [done |]. rewrite last_cons_cons.
  destruct (last (c' :: l)) eqn:Hl; [done |]. by apply last_None in Hl.
Qed.

(** [c+] run over a block [xs] of characters of the class that is followed
    by a character outside it: when what follows the repetition cannot
    start inside the block, the repetition takes the whole block. *)
Lemma plus_rest_block (p : Z → bool) (xs : list Z) :
  ∀ prev rest cs k,
    forallb p xs = true → starts_with p rest = false →
    (∀ j pv, (j < length xs)%nat → k pv (drop j xs ++ rest) cs = None) →
    plus_rest p prev (xs ++ rest) cs k = k (from_option Some prev (last xs)) rest cs.
Proof.
  induction xs as [| x xs IH]; intros prev rest cs k Hxs Hrest Hk.
  - destruct rest as [| c rest]; [done |].
    unfold starts_with in Hrest. simpl in Hrest. simpl. by rewrite Hrest.
  - simpl in Hxs. apply andb_true_iff in Hxs as [Hx Hxs].
    rewrite last_cons_from. cbn [app plus_rest]. rewrite Hx.
    rewrite IH; [| done | done |].
    + destruct (k _ rest cs) eqn:Hmax; [done |].
      apply (Hk 0%nat prev). simpl. lia.
    + intros j pv Hj. apply (Hk (S j) pv). simpl. lia.
Qed.

(** The same when what follows succeeds after the whole block: the first
    answer of the backtracking search is that one. *)
Lemma plus_rest_first (p : Z → bool) (xs : list Z) :
  ∀ prev rest cs k res,
    forallb p xs = true → starts_with p rest = false →
    k (from_option Some prev (last xs)) rest cs = Some res →
    plus_rest p prev (xs ++ rest) cs k = Some res.
Proof.
  induction xs as [| x xs IH]; intros prev rest cs k res Hxs Hrest Hk.
  - destruct rest as [| c rest]; [done |].
    unfold starts_with in Hrest. simpl in Hrest. simpl. by rewrite Hrest.
  - simpl in Hxs. apply andb_true_iff in Hxs as [Hx Hxs].
    rewrite last_cons_from in Hk. cbn [app plus_rest]. rewrite Hx.
    by rewrite (IH (Some x) rest cs k res).
Qed.

Lemma consumed_app (xs rest : list Z) : consumed (xs ++ rest) rest = xs.
Proof.
  unfold consumed. rewrite length_app.
  replace (length xs + length rest - length rest)%nat with (length xs) by lia.
  by rewrite take_app_length.
Qed.

Lemma class_s_not_d (c : Z) : class_s c = true → class_d c = false.
Proof.
  unfold class_s, class_d. intros Hc%bool_decide_eq_true.
  apply bool_decide_eq_false. set_solver by lia.
Qed.

Lemma class_d_not_s (c : Z) : class_d c = true → class_s c = false.
Proof.
  intros Hd. destruct (class_s c) eqn:Hs; [| done].
  apply class_s_not_d in Hs. congruence.
Qed.

(** Inside a block of a class, the head is of the class. *)
Lemma block_drop_head (p : Z → bool) (xs rest : list Z) (j : nat) :
  forallb p xs = true → (j < length xs)%nat →
  ∃ y t, drop j xs ++ rest = y :: t ∧ p y = true.
Proof.
  intros Hxs Hj. destruct (drop j xs) as [| y t] eqn:Hd.
  - apply (f_equal length) in Hd. rewrite length_drop in Hd. simpl in Hd. lia.
  - exists y, (t ++ rest). split; [done |].
    rewrite forallb_forall in Hxs. apply Hxs, list_elem_of_In.
    apply (list_elem_of_lookup_2 _ (j + 0)). by rewrite <- lookup_drop, Hd.
Qed.

(** *** The two "longer than" patterns at the phrase *)

(** [longer than\s+(\d+)] at the phrase followed by the blanks [ws] and the
    digits [ds]: the match ends after the digits and the group is [ds]. *)
Lemma reLonger_here (prev : option Z) (ws ds post : list Z) :
  ws ≠ [] → forallb class_s ws = true →
  ds ≠ [] → forallb class_d ds = true →
  starts_with class_d post = false →
  match_here reLonger prev (str "longer than" ++ ws ++ ds ++ post)
  = Some (post, {[1%nat := ds]}).
Proof.
  intros Hws Hs Hds Hd Hpost.
  destruct ws as [| w ws]; [done |]. destruct ds as [| d ds]; [done |].
  simpl in Hs, Hd. apply andb_true_iff in Hs as [Hw Hs], Hd as [Hd0 Hd].
  unfold match_here, reLonger.
  change (rmatch (RCat (RLit ?l) ?r) ?pv ?s ?cs ?k)
    with (match strip_prefix l s with
          | Some s' => rmatch r (from_option Some pv (last l)) s' cs k
          | None => None
          end).
  rewrite (proj2 (strip_prefix_Some _ _ _) eq_refl).
  cbn [rmatch app]. rewrite Hw.
  rewrite plus_rest_block; [| done | by simpl; apply class_d_not_s | ].
  - rewrite Hd0. erewrite plus_rest_first; [reflexivity | done | done |].
    change (d :: ds ++ post) with ((d :: ds) ++ post).
    by rewrite consumed_app.
  - intros j pv Hj.
    destruct (block_drop_head class_s ws (d :: ds ++ post) j) as (y & t & -> & Hy);
      [done | done |].
    by rewrite (class_s_not_d y).
Qed.

(** [longer than\s+(\d+)\s+characters] at the same place: it may fail, and
    when it matches its group is [ds] as well. *)
Lemma reLonger2_here (prev : option Z) (ws ds post : list Z) :
  ws ≠ [] → forallb class_s ws = true →
  ds ≠ [] → forallb class_d ds = true →
  starts_with class_d post = false →
  match_here reLonger2 prev (str "longer than" ++ ws ++ ds ++ post) = None
  ∨ ∃ s', match_here reLonger2 prev (str "longer than" ++ ws ++ ds ++ post)
          = Some (s', {[1%nat := ds]}).
Proof.
  intros Hws Hs Hds Hd Hpost.
  destruct ws as [| w ws]; [done |]. destruct ds as [| d ds]; [done |].
  simpl in Hs, Hd. apply andb_true_iff in Hs as [Hw Hs], Hd as [Hd0 Hd].
  unfold match_here, reLonger2.
  change (rmatch (RCat (RLit ?l) ?r) ?pv ?s ?cs ?k)
    with (match strip_prefix l s with
          | Some s' => rmatch r (from_option Some pv (last l)) s' cs k
          | None => None
          end).
  rewrite (proj2 (strip_prefix_Some _ _ _) eq_refl).
  cbn [rmatch app]. rewrite Hw.
  rewrite plus_rest_block; [| done | by simpl; apply class_d_not_s | ].
  - rewrite Hd0.
    rewrite plus_rest_block; [| done | done | ].
    + change (d :: ds ++ post) with ((d :: ds) ++ post). rewrite consumed_app.
      destruct post as [| c post]; [by left |].
      destruct (class_s c); [| by left].
      destruct (plus_rest class_s _ _ _ _) as [[s' cs'] |] eqn:Hrest; [| by left].
      right. exists s'.
      apply plus_rest_Some in Hrest as (pv' & s'' & _ & Hk).
      destruct (strip_prefix _ s''); [| done]. by injection Hk as <- <-.
    + intros j pv Hj.
      destruct (block_drop_head class_d ds post j) as (y & t & -> & Hy);
        [done | done |].
      by rewrite (class_d_not_s y).
  - intros j pv Hj.
    destruct (block_drop_head class_s ws (d :: ds ++ post) j) as (y & t & -> & Hy);
      [done | done |].
    by rewrite (class_s_not_d y).
Qed.

(** *** Where the leftmost match is *)

(** The search skips a stretch of text in which the pattern matches
    nowhere. *)
Lemma find_from_skip (r : regex) (pre : list Z) :
  ∀ prev pos rest,
    (∀ i p, (i < length pre)%nat → match_here r p (drop i (pre ++ rest)) = None) →
    find_from r prev (pre ++ rest) pos
    = find_from r (from_option Some prev (last pre)) rest (pos + length pre).
Proof.
  induction pre as [| c pre IH]; intros prev pos rest Hno.
  - simpl. by rewrite Nat.add_0_r.
  - rewrite last_cons_from. cbn [app find_from].
    assert (match_here r prev (c :: pre ++ rest) = None) as ->
      by (apply (Hno 0%nat prev); simpl; lia).
    rewrite IH.
    + f_equal. simpl. lia.
    + intros i p Hi. apply (Hno (S i) p). simpl. lia.
Qed.

Lemma find_from_nowhere (r : regex) (s : list Z) :
  ∀ prev pos,
    (∀ i p, match_here r p (drop i s) = None) → find_from r prev s pos = None.
Proof.
  induction s as [| c s IH]; intros prev pos Hno; simpl.
  - assert (match_here r prev [] = None) as -> by apply (Hno 0%nat prev). done.
  - assert (match_here r prev (c :: s) = None) as -> by apply (Hno 0%nat prev).
    apply IH. intros i p. apply (Hno (S i) p).
Qed.

(** The phrase stands at position [n] of [s] and nowhere else. *)
Lemma occurrences_only (l s : list Z) (n i : nat) :
  l ≠ [] → occurrences l s = [n] → i ≠ n → strip_prefix l (drop i s) = None.
Proof.
  intros Hl Hocc Hi.
  destruct (strip_prefix l (drop i s)) as [s' |] eqn:Hp; [| done].
  exfalso. apply Hi. apply list_elem_of_singleton. rewrite <- Hocc.
  apply list_elem_of_filter. split; [by rewrite Hp |].
  apply elem_of_seq. split; [lia |].
  destruct (decide (i ≤ length s)%nat) as [Hle | Hgt]; [lia |].
  rewrite drop_ge in Hp by lia. by destruct l.
Qed.

(** A pattern led by a literal that stands at one place only: the leftmost
    match is the match at that place, if there is one. *)
Lemma doExecute_only (l : list Z) (r : regex) (pre mid : list Z) :
  (∀ i, i ≠ length pre → strip_prefix l (drop i (pre ++ mid)) = None) →
  doExecute (RCat (RLit l) r) (pre ++ mid) 0
  = match match_here (RCat (RLit l) r) (last pre) mid with
    | Some (s', cs) =>
        Some (length pre, (length pre + (length mid - length s'))%nat, cs)
    | None => None
    end.
Proof.
  intros Hno. unfold doExecute. rewrite drop_0, take_0.
  rewrite find_from_skip.
  - change (from_option Some (last []) (last pre)) with (from_option Some None (last pre)).
    replace (from_option Some None (last pre)) with (last pre) by (by destruct (last pre)).
    destruct mid as [| c mid]; cbn [find_from].
    + by destruct (match_here _ _ []) as [[s' cs] |].
    + destruct (match_here _ _ (c :: mid)) as [[s' cs] |]; [done |].
      apply find_from_nowhere. intros i p. apply literal_led_None.
      specialize (Hno (length pre + S i)%nat).
      rewrite drop_app_add in Hno. apply Hno. lia.
  - intros i p Hi. apply literal_led_None, Hno. lia.
Qed.

(** *** Numerals *)

Lemma digits_value_nonneg (ds : list Z) :
  ∀ acc n, 0 ≤ acc → digits_value acc ds = Some n → 0 ≤ n.
Proof.
  induction ds as [| c ds IH]; intros acc n Hacc; simpl.
  - intros [= <-]. done.
  - case_bool_decide; [| done]. apply IH. lia.
Qed.

(** [strconv.Atoi] on a run of digits whose value fits an [int]. *)
Lemma Atoi_digits (ds : list Z) (n : Z) :
  ds ≠ [] → forallb class_d ds = true →
  digits_value 0 ds = Some n → n ≤ max_int → Atoi ds = Some n.
Proof.
  intros Hne Hd Hv Hn. destruct ds as [| c t]; [done |].
  pose proof (digits_value_nonneg _ _ _ (Z.le_refl 0) Hv) as Hnn.
  simpl in Hd. apply andb_true_iff in Hd as [Hc _].
  unfold class_d in Hc. apply bool_decide_eq_true in Hc.
  unfold Atoi.
  rewrite (bool_decide_false (c = 45)), (bool_decide_false (c = 43)) by lia.
  cbn [orb]. rewrite Hv.
  by rewrite bool_decide_true by (unfold min_int; lia).
Qed.

(** The number each "longer than" pattern hands over, for a text in which
    the phrase stands once, followed by blanks and a numeral. *)
Lemma numeral_found_longer (pre ws ds post : list Z) (n : Z) :
  occurrences (str "longer than") (pre ++ str "longer than" ++ ws ++ ds ++ post)
    = [length pre] →
  ws ≠ [] → forallb class_s ws = true →
  ds ≠ [] → forallb class_d ds = true →
  starts_with class_d post = false →
  digits_value 0 ds = Some n → n ≤ max_int →
  numeral_found reLonger (pre ++ str "longer than" ++ ws ++ ds ++ post) = Some n
  ∧ (numeral_found reLonger2 (pre ++ str "longer than" ++ ws ++ ds ++ post) = Some n
     ∨ numeral_found reLonger2 (pre ++ str "longer than" ++ ws ++ ds ++ post) = None).
Proof.
  intros Hocc Hws Hs Hds Hd Hpost Hv Hn.
  assert (Hno : ∀ i, i ≠ length pre →
            strip_prefix (str "longer than")
              (drop i (pre ++ str "longer than" ++ ws ++ ds ++ post)) = None).
  { intros i Hi. by apply (occurrences_only _ _ (length pre)). }
  pose proof (Atoi_digits ds n Hds Hd Hv Hn) as Hatoi.
  unfold numeral_found, FindStringSubmatch. split.
  - unfold reLonger at 1. rewrite doExecute_only by done.
    fold reLonger. rewrite reLonger_here by done.
    cbn [NumSubexp reLonger Nat.add seq fmap list_fmap].
    by rewrite lookup_singleton_eq.
  - unfold reLonger2 at 1 3. rewrite doExecute_only by done.
    fold reLonger2.
    destruct (reLonger2_here (last pre) ws ds post) as [-> | [s' ->]]; try done.
    + by right.
    + left. cbn [NumSubexp reLonger2 Nat.add seq fmap list_fmap].
      by rewrite lookup_singleton_eq.
Qed.

(** *** What the patterns capture *)

(** A pattern without groups hands the groups on as it got them. *)
Lemma rmatch_groupless (r : regex) :
  NumSubexp r = 0%nat →
  ∀ prev s cs k res,
    rmatch r prev s cs k = Some res → ∃ prev' s', k prev' s' cs = Some res.
Proof.
  induction r as [l | p | p | | r1 IH1 r2 IH2 | r1 IH1 r2 IH2 | n r IH];
    intros Hn prev s cs k res; simpl in *.
  - destruct (strip_prefix l s); [eauto | done].
  - destruct s as [| c s']; [done |]. destruct (p c); [eauto | done].
  - destruct s as [| c s']; [done |]. destruct (p c); [| done].
    intros (prev' & s'' & _ & Hk)%plus_rest_Some. eauto.
  - destruct (xorb _ _); [eauto | done].
  - intros (prev' & s' & Hm)%IH1; [| lia]. apply IH2 in Hm; [done | lia].
  - destruct (rmatch r1 prev s cs k) eqn:Hm.
    + intros [= <-]. apply IH1 in Hm; [done | lia].
    + intros Hm'. apply IH2 in Hm'; [done | lia].
  - done.
Qed.

Lemma rmatch_cat_groupless (r1 r2 : regex) (prev : option Z) (s : list Z)
    (cs : gmap nat (list Z)) k (res : list Z * gmap nat (list Z)) :
  NumSubexp r1 = 0%nat →
  rmatch (RCat r1 r2) prev s cs k = Some res →
  ∃ prev' s', rmatch r2 prev' s' cs k = Some res.
Proof.
  intros Hn Hm. change (rmatch (RCat r1 r2) prev s cs k)
    with (rmatch r1 prev s cs (λ prev' s' cs', rmatch r2 prev' s' cs' k)) in Hm.
  by apply rmatch_groupless in Hm.
Qed.

(** [c+] takes characters of its class only. *)
Lemma plus_rest_run (p : Z → bool) (s : list Z) :
  ∀ prev cs k res,
    plus_rest p prev s cs k = Some res →
    ∃ n prev', Forall (λ c, p c = true) (take n s)
               ∧ k prev' (drop n s) cs = Some res.
Proof.
  induction s as [| c s IH]; intros prev cs k res; simpl.
  - intros Hk. by exists 0%nat, prev.
  - destruct (p c) eqn:Hp; [| intros Hk; by exists 0%nat, prev].
    destruct (plus_rest p (Some c) s cs k) as [r' |] eqn:Hrest.
    + intros [= <-]. apply IH in Hrest as (n & prev' & Hall & Hk).
      exists (S n), prev'. split; [by constructor | done].
    + intros Hk. by exists 0%nat, prev.
Qed.

(** A group around [c+] holds at least one character, all of the class. *)
Lemma group_plus_captured (n : nat) (p : Z → bool) (prev : option Z) (s : list Z)
    (cs : gmap nat (list Z)) k (res : list Z * gmap nat (list Z)) :
  rmatch (RGroup n (RPlus p)) prev s cs k = Some res →
  ∃ c ds prev' s', Forall (λ c, p c = true) (c :: ds)
                   ∧ k prev' s' (<[n := c :: ds]> cs) = Some res.
Proof.
  simpl. destruct s as [| c s0]; [done |].
  destruct (p c) eqn:Hp; [| done].
  intros (m & prev' & Hall & Hk)%plus_rest_run.
  exists c, (take m s0), prev', (drop m s0). split; [by constructor |].
  replace (consumed (c :: s0) (drop m s0)) with (c :: take m s0) in Hk; [done |].
  unfold consumed. rewrite length_drop. simpl length.
  destruct (decide (m ≤ length s0)%nat).
  - by replace (S (length s0) - (length s0 - m))%nat with (S m) by lia.
  - replace (S (length s0) - (length s0 - m))%nat with (S (length s0)) by lia.
    simpl. by rewrite !take_ge by lia.
Qed.

Lemma reLonger_group (prev : option Z) (s s' : list Z) (cs : gmap nat (list Z)) :
  match_here reLonger prev s = Some (s', cs) →
  ∃ c ds, Forall (λ c, class_d c = true) (c :: ds) ∧ cs = {[1%nat := c :: ds]}.
Proof.
  unfold match_here, reLonger. intros Hm.
  apply rmatch_cat_groupless in Hm as (p1 & s1 & Hm); [| done].
  apply rmatch_cat_groupless in Hm as (p2 & s2 & Hm); [| done].
  apply group_plus_captured in Hm as (c & ds & p3 & s3 & Hall & [= _ <-]).
  exists c, ds. by rewrite insert_empty.
Qed.

Lemma reLonger2_group (prev : option Z) (s s' : list Z) (cs : gmap nat (list Z)) :
  match_here reLonger2 prev s = Some (s', cs) →
  ∃ c ds, Forall (λ c, class_d c = true) (c :: ds) ∧ cs = {[1%nat := c :: ds]}.
Proof.
  unfold match_here, reLonger2. intros Hm.
  apply rmatch_cat_groupless in Hm as (p1 & s1 & Hm); [| done].
  apply rmatch_cat_groupless in Hm as (p2 & s2 & Hm); [| done].
  match type of Hm with
  | rmatch (RCat ?a ?b) ?p ?s ?c ?k = _ =>
      change (rmatch (RCat a b) p s c k)
        with (rmatch a p s c (λ p' s' c', rmatch b p' s' c' k)) in Hm
  end.
  apply group_plus_captured in Hm as (c & ds & p3 & s3 & Hall & Hk).
  apply rmatch_groupless in Hk as (p4 & s4 & [= _ <-]); [| done].
  exists c, ds. by rewrite insert_empty.
Qed.

Lemma reWords_group (prev : option Z) (s s' : list Z) (cs : gmap nat (list Z)) :
  match_here reWords prev s = Some (s', cs) →
  ∃ c ds, Forall (λ c, class_d c = true) (c :: ds) ∧ cs = {[1%nat := c :: ds]}.
Proof.
  unfold match_here, reWords. intros Hm.
  apply rmatch_cat_groupless in Hm as (p1 & s1 & Hm); [| done].
  match type of Hm with
  | rmatch (RCat ?a ?b) ?p ?s ?c ?k = _ =>
      change (rmatch (RCat a b) p s c k)
        with (rmatch a p s c (λ p' s' c', rmatch b p' s' c' k)) in Hm
  end.
  apply group_plus_captured in Hm as (c & ds & p3 & s3 & Hall & Hk).
  apply rmatch_groupless in Hk as (p4 & s4 & [= _ <-]); [| done].
  exists c, ds. by rewrite insert_empty.
Qed.

(** *** Numerals *)






(** *** Claims on the translator *)

Section translator_claims.
Context `{Runtime}.

(** The minimum length after all the rules: the second pattern overrides
    the first, and no other rule writes the key. *)
Lemma apply_rules_min_length (q : list Z) :
  apply_rules q !! "min_length"
  = match numeral_found reLonger2 q with
    | Some n2 => Some (DInt (wrap (n2 + 1)))
    | None =>
        match numeral_found reLonger q with
        | Some n1 => Some (DInt (wrap (n1 + 1)))
        | None => None
        end
    end.
Proof.
  unfold apply_rules.
  rewrite rule_n_words_lookup, rule_first_vowel_lookup, rule_contains_lookup by done.
  rewrite !rule_longer_numeral.
  destruct (numeral_found reLonger2 q) as [n2 |]; [by rewrite lookup_insert_eq |].
  destruct (numeral_found reLonger q) as [n1 |]; [by rewrite lookup_insert_eq |].
  rewrite rule_palindrome_lookup, rule_single_word_lookup by done.
  apply lookup_empty.
Qed.

(** C5.  When the text the rules read holds the phrase "longer than" once,
    followed by blanks of the class [\s] and a decimal numeral N below the
    largest [int], the translation succeeds and its minimum length is
    N + 1, whether or not the word "characters" follows.  The query
    "strings longer than 5 characters containing the letter r" yields
    exactly the two fields min_length 6 and contains_character "r". *)
Theorem C5_longer_than_sets_min_length :
  (∀ query pre ws ds post n,
     normalize query = pre ++ str "longer than" ++ ws ++ ds ++ post →
     occurrences (str "longer than") (normalize query) = [length pre] →
     ws ≠ [] → forallb class_s ws = true →
     ds ≠ [] → forallb class_d ds = true →
     starts_with class_d post = false →
     digits_value 0 ds = Some n → n < max_int →
     ∃ f, parseNaturalLanguage query = Ok f
          ∧ f !! "min_length" = Some (DInt (n + 1)))
  ∧ parseNaturalLanguage
      (str "strings longer than 5 characters containing the letter r")
    = Ok (<["min_length" := DInt 6]>
            {["contains_character" := DString (str "r")]}).
Proof.
  split; [| vm_compute; reflexivity].
  intros query pre ws ds post n Hq Hocc Hws Hs Hds Hd Hpost Hv Hn.
  rewrite Hq in Hocc.
  destruct (numeral_found_longer pre ws ds post n) as [H1 H2]; try done; [lia |].
  pose proof (digits_value_nonneg _ _ _ (Z.le_refl 0) Hv) as Hnn.
  assert (Hmin : apply_rules (normalize query) !! "min_length" = Some (DInt (n + 1))).
  { rewrite apply_rules_min_length, Hq, H1.
    destruct H2 as [-> | ->];
      by rewrite (wrap_small (n + 1)) by (unfold min_int, max_int in *; lia). }
  exists (apply_rules (normalize query)). split; [| done].
  rewrite parseNaturalLanguage_cases.
  rewrite bool_decide_false by (rewrite Hq; by destruct pre).
  rewrite bool_decide_false; [done |].
  intros Hempty. by rewrite Hempty, lookup_empty in Hmin.
Qed.







(** C9.  No rule writes the key [max_length], so the test of lines 343-350
    is false for the map of every query, and the translator answers with
    the empty-query error, with the unparseable error or with the map of the
    rules: never with the conflicting-filters error. *)
Theorem C9_conflicting_filters_unreachable :
  ∀ query,
    apply_rules (normalize query) !! "max_length" = None
    ∧ conflicting (apply_rules (normalize query)) = false
    ∧ (parseNaturalLanguage query = Err ErrEmptyQuery
       ∨ parseNaturalLanguage query = Err ErrUnparseable
       ∨ parseNaturalLanguage query = Ok (apply_rules (normalize query))).
Proof.
  intros query. split_and!.
  - apply apply_rules_no_max_length.
  - apply conflicting_apply_rules.
  - rewrite parseNaturalLanguage_cases. repeat case_bool_decide; auto.
Qed.

End translator_claims.

(** * Closed instances

    The statements above hold for every runtime.  Here they are applied to
    concrete inputs, with [sample_runtime]. *)

(** C8 at the value "banana": six code points, counts 3 + 2 + 1. *)
Lemma C8_frequencies_sum_to_length_witness :
  Z.of_nat (length (str "banana")) ≤ max_int
  ∧ sum_values (CharacterFrequencyMap (@analyzeString sample_runtime (str "banana")))
    = Z.of_nat (length (str "banana"))
  ∧ Length (@analyzeString sample_runtime (str "banana"))
    = Z.of_nat (length (str "banana"))
  ∧ sum_values (CharacterFrequencyMap (@analyzeString sample_runtime (str "banana")))
    = Length (@analyzeString sample_runtime (str "banana")).
Proof.
  split.
  - vm_compute. discriminate.
  - apply (@C8_frequencies_sum_to_length sample_runtime (str "banana")).
    vm_compute. discriminate.
Defined.

(** C5 at the query of the specification: the phrase stands once, at
    position 8, followed by one blank and the numeral 5. *)
Lemma C5_longer_than_sets_min_length_witness :
  ∃ f, @parseNaturalLanguage sample_runtime
         (str "strings longer than 5 characters containing the letter r") = Ok f
       ∧ f !! "min_length" = Some (DInt (5 + 1)).
Proof.
  apply (proj1 (@C5_longer_than_sets_min_length sample_runtime)
           (str "strings longer than 5 characters containing the letter r")
           (str "strings ") (str " ") (str "5")
           (str " characters containing the letter r") 5).
  - vm_compute. reflexivity.
  - vm_compute. reflexivity.
  - discriminate.
  - reflexivity.
  - discriminate.
  - reflexivity.
  - reflexivity.
  - reflexivity.
  - reflexivity.
Defined.

(** C5 as stated fails.  A numeral that does not fit an [int] is refused by
    [strconv.Atoi] and the rule sets nothing: the query below, which holds
    "longer than N" for N = 2^63, is answered with the unparseable error.
    And of two occurrences one decides: the query that holds "longer than 5"
    gets the minimum length 8, from the occurrence followed by
    "characters". *)
Lemma C5_longer_than_counterexample :
  @parseNaturalLanguage sample_runtime
    (str "strings longer than 9223372036854775808 characters")
  = Err ErrUnparseable
  ∧ @parseNaturalLanguage sample_runtime
      (str "longer than 5 or longer than 7 characters")
    = Ok {["min_length" := DInt 8]}.
Proof. split; vm_compute; reflexivity. Qed.



(** * Further properties *)

(** *** The analyzer *)

Lemma occurrences_snoc (s : list Z) (r x : Z) :
  length (filter (λ y, y = r) (s ++ [x]))
  = (length (filter (λ y, y = r) s) + (if decide (x = r) then 1 else 0))%nat.
Proof.
  rewrite filter_app, length_app. f_equal.
  rewrite filter_cons, filter_nil. by destruct (decide (x = r)).
Qed.

Lemma charFreqMap_lookup_count (s : list Z) (r : Z) :
  Z.of_nat (length s) ≤ max_int →
  charFreqMap s !! [r]
  = if decide (length (filter (λ y, y = r) s) = 0%nat) then None
    else Some (Z.of_nat (length (filter (λ y, y = r) s))).
Proof.
  induction s as [| x s IH] using rev_ind; intros Hlen; [done |].
  rewrite length_app in Hlen. simpl in Hlen.
  specialize (IH ltac:(lia)).
  rewrite charFreqMap_snoc, occurrences_snoc. unfold map_incr.
  pose proof (length_filter (λ y, y = r) s) as Hle.
  destruct (decide (x = r)) as [-> | Hne].
  - rewrite lookup_insert_eq, IH.
    rewrite (decide_False (P := (_ + 1)%nat = 0%nat)) by lia.
    destruct (decide (_ = 0%nat)) as [-> | Hpos]; simpl.
    + by rewrite wrap_small by (unfold min_int, max_int; lia).
    + rewrite wrap_small by (unfold min_int, max_int in *; lia). f_equal. lia.
  - rewrite lookup_insert_ne by congruence. rewrite IH, Nat.add_0_r. done.
Qed.

Lemma filter_eq_nil_iff (s : list Z) (r : Z) :
  length (filter (λ y, y = r) s) = 0%nat ↔ r ∉ s.
Proof.
  split.
  - intros Hnil%nil_length_inv. by apply (filter_nil_not_elem_of _ _ _ Hnil).
  - intros Hr. induction s as [| x s IH]; [done |].
    apply not_elem_of_cons in Hr as [Hne Hr].
    rewrite filter_cons, decide_False by congruence. by apply IH.
Qed.

Section analyzer_properties.
Context `{Runtime}.

(** X1.  The character-frequency map of a value gives every code point of
    the value the number of its occurrences, which is at least one, and has
    no other key. *)
Theorem charFreqMap_counts_occurrences (s : gostring) :
  Z.of_nat (length s) ≤ max_int →
  (∀ r, r ∈ s →
     CharacterFrequencyMap (analyzeString s) !! [r]
     = Some (Z.of_nat (length (filter (λ y, y = r) s)))
     ∧ (1 ≤ length (filter (λ y, y = r) s))%nat)
  ∧ (∀ k, (∀ r, r ∈ s → k ≠ [r]) → CharacterFrequencyMap (analyzeString s) !! k = None).
Proof.
  intros Hlen. cbn [CharacterFrequencyMap analyzeString]. split.
  - intros r Hr. rewrite charFreqMap_lookup_count by done.
    destruct (decide (_ = 0%nat)) as [Hz | Hnz].
    + by apply filter_eq_nil_iff in Hz.
    + split; [done | lia].
  - intros k Hk. apply not_elem_of_dom. rewrite <- elem_of_keys, charFreqMap_keys.
    intros (r & Hr & ->). by apply (Hk r).
Qed.

(** X2.  There are never more distinct code points than code points, and
    as many exactly when no code point repeats; the empty string alone has
    none. *)
Theorem unique_characters_bounds (s : gostring) :
  0 ≤ UniqueCharacters (analyzeString s) ≤ Length (analyzeString s)
  ∧ (UniqueCharacters (analyzeString s) = Length (analyzeString s) ↔ NoDup s)
  ∧ (UniqueCharacters (analyzeString s) = 0 ↔ s = []).
Proof.
  cbn [UniqueCharacters Length analyzeString]. rewrite charFreqMap_size.
  assert (Hlen : ∀ l : list Z, (length (remove_dups l) ≤ length l)%nat).
  { induction l as [| x l IH]; simpl; [done |].
    destruct (decide_rel elem_of x l); simpl; lia. }
  assert (Hnd : ∀ l : list Z, length (remove_dups l) = length l ↔ NoDup l).
  { induction l as [| x l IH]; simpl; [split; [constructor | done] |].
    destruct (decide_rel elem_of x l) as [Hin | Hout]; simpl.
    - specialize (Hlen l). split; [lia |]. intros Hn%NoDup_cons. naive_solver.
    - rewrite NoDup_cons. split.
      + intros [= Hl]. split; [done |]. by apply IH.
      + intros [_ Hl]. f_equal. by apply IH. }
  split_and!.
  - lia.
  - specialize (Hlen s). lia.
  - rewrite <- Hnd. lia.
  - split; [| by intros ->]. intros Hz. destruct s as [| x s]; [done |].
    assert (x ∈ remove_dups (x :: s)) as Hx by (apply elem_of_remove_dups; by left).
    destruct (remove_dups (x :: s)); [by apply elem_of_nil in Hx | simpl in Hz; lia].
Qed.

(** The compared sequence of the reverse is the reverse of the compared
    sequence. *)
Lemma folded_reverse (s : gostring) : folded (reverse s) = reverse (folded s).
Proof.
  unfold folded, strings_ToLower, strings_Map.
  by rewrite fmap_reverse, filter_reverse.
Qed.

Lemma folded_app (s t : gostring) : folded (s ++ t) = folded s ++ folded t.
Proof.
  unfold folded, strings_ToLower, strings_Map. by rewrite fmap_app, filter_app.
Qed.

(** X3.  Reading a string backwards does not change whether it is a
    palindrome, and a string followed by its own reverse always is one. *)
Theorem isPalindrome_reverse :
  (∀ s, IsPalindrome (analyzeString (reverse s)) = IsPalindrome (analyzeString s))
  ∧ (∀ s, IsPalindrome (analyzeString (s ++ reverse s)) = true).
Proof.
  cbn [IsPalindrome analyzeString]. split.
  - intros s. apply eq_true_iff_eq.
    rewrite !isPalindrome_folded, folded_reverse, reverse_involutive. naive_solver.
  - intros s. apply isPalindrome_folded.
    by rewrite folded_app, folded_reverse, reverse_app, reverse_involutive.
Qed.

End analyzer_properties.

(** *** The word count, again *)

Lemma count_runs_length (p : Z → bool) (u : list Z) (b : bool) :
  (count_runs p b u ≤ length u)%nat.
Proof.
  revert b. induction u as [| c u IH]; intros b; simpl; [done |].
  pose proof (IH true). pose proof (IH false). destruct (p c), b; simpl; lia.
Qed.

Lemma strings_TrimSpace_length (s : list Z) :
  (length (strings_TrimSpace s) ≤ length s)%nat.
Proof.
  unfold strings_TrimSpace.
  destruct (TrimLeftFunc_spec unicode_IsSpace s) as (sp1 & Hs1 & _ & _).
  destruct (TrimRightFunc_spec unicode_IsSpace (TrimLeftFunc unicode_IsSpace s))
    as (sp2 & Hu & _ & _).
  apply (f_equal length) in Hs1, Hu. rewrite length_app in Hs1, Hu. lia.
Qed.

Lemma strings_TrimSpace_nil (s : list Z) :
  strings_TrimSpace s = [] ↔ Forall (λ r, unicode_IsSpace r = true) s.
Proof.
  split; [| apply strings_TrimSpace_blank].
  unfold strings_TrimSpace. intros Hnil.
  destruct (TrimLeftFunc_spec unicode_IsSpace s) as (sp1 & Hs1 & Hsp1 & _).
  destruct (TrimRightFunc_spec unicode_IsSpace (TrimLeftFunc unicode_IsSpace s))
    as (sp2 & Hu & Hsp2 & _).
  rewrite Hnil in Hu. rewrite Hs1, Hu. apply Forall_app.
  rewrite forallb_forall in Hsp1, Hsp2.
  split; apply Forall_forall; intros x Hx%list_elem_of_In; auto.
Qed.

(** The trimmed text does not start with white space. *)
Lemma strings_TrimSpace_head (s : list Z) :
  starts_with unicode_IsSpace (strings_TrimSpace s) = false.
Proof.
  unfold strings_TrimSpace.
  destruct (TrimLeftFunc_spec unicode_IsSpace s) as (sp1 & _ & _ & Hhd).
  destruct (TrimRightFunc_spec unicode_IsSpace (TrimLeftFunc unicode_IsSpace s))
    as (sp2 & Hu & _ & _).
  destruct (TrimRightFunc _ _) as [| c t]; [done |].
  rewrite Hu in Hhd. exact Hhd.
Qed.

Section word_count_properties.
Context `{Runtime}.

(** X4.  The word count is zero exactly for the strings that consist of
    Unicode white space only (the empty string among them); it is never
    negative and never more than the number of code points. *)
Theorem wordCount_zero_iff_blank (s : gostring) :
  (WordCount (analyzeString s) = 0 ↔ Forall (λ r, unicode_IsSpace r = true) s)
  ∧ 0 ≤ WordCount (analyzeString s) ≤ Length (analyzeString s).
Proof.
  cbn [WordCount Length analyzeString]. rewrite wordCount_runs.
  rewrite <- strings_TrimSpace_nil.
  case_bool_decide as Hnil; [split; [done | lia] |].
  split; [split; [lia | done] |]. split; [lia |].
  pose proof (strings_TrimSpace_length s) as Hlen.
  pose proof (strings_TrimSpace_head s) as Hhd.
  destruct (strings_TrimSpace s) as [| c t]; [done |].
  unfold starts_with in Hhd. simpl in Hhd.
  assert (class_s c = false) as Hc.
  { destruct (class_s c) eqn:Hcs; [| done]. apply class_s_IsSpace in Hcs. congruence. }
  cbn [count_runs]. rewrite Hc.
  pose proof (count_runs_length class_s t false). simpl in Hlen. lia.
Qed.

End word_count_properties.

(** *** Creating, reading and deleting *)

Section store_properties.
Context `{Runtime}.

Lemma postStringsHandler_create (m : gmap (list Z) StoredString) (v now : gostring) :
  postStringsHandler m (create v) now =
    if bool_decide (is_Some (m !! computeHash v)) then
      (m, writeJSON StatusConflict (BError "string already exists in the system"))
    else (<[computeHash v := record_of v now]> m,
          writeJSON StatusCreated (BItem (record_of v now))).
Proof.
  unfold postStringsHandler. rewrite post_check_create. by case_bool_decide.
Qed.

Lemma getStringByValueHandler_value (m : gmap (list Z) StoredString) (v : gostring) :
  v ≠ [] →
  getStringByValueHandler m (get_value v) =
    match m !! computeHash v with
    | None => writeJSON StatusNotFound (BError "string does not exist in the system")
    | Some item => writeJSON StatusOK (BItem item)
    end.
Proof.
  intros Hv. unfold getStringByValueHandler, get_value. cbn [path_method path_decoded].
  rewrite (bool_decide_false (GET ≠ GET)) by (intros Hne; by apply Hne).
  by rewrite bool_decide_false by done.
Qed.

Lemma deleteStringHandler_value (m : gmap (list Z) StoredString) (v : gostring) :
  v ≠ [] →
  deleteStringHandler m (delete_value v) =
    match m !! computeHash v with
    | None => (m, writeJSON StatusNotFound (BError "string does not exist in the system"))
    | Some _ => (delete (computeHash v) m, WriteHeader StatusNoContent)
    end.
Proof.
  intros Hv. unfold deleteStringHandler, delete_value. cbn [path_method path_decoded].
  rewrite (bool_decide_false (DELETE ≠ DELETE)) by (intros Hne; by apply Hne).
  by rewrite bool_decide_false by done.
Qed.

(** X5.  A creation of a value that is not stored yet answers 201 with the
    record of the value, puts that record under the hash of the value and
    leaves every other key alone; a GET for the (non-empty) value then
    answers 200 with the same record, and a second creation of the value
    answers 409 and changes nothing. *)
Theorem create_then_get (m : gmap (list Z) StoredString) (v now : gostring) :
  m !! computeHash v = None →
  postStringsHandler m (create v) now
  = (<[computeHash v := record_of v now]> m,
     writeJSON StatusCreated (BItem (record_of v now)))
  ∧ (∀ k, k ≠ computeHash v →
       (postStringsHandler m (create v) now).1 !! k = m !! k)
  ∧ (v ≠ [] →
     getStringByValueHandler (postStringsHandler m (create v) now).1 (get_value v)
     = writeJSON StatusOK (BItem (record_of v now)))
  ∧ (∀ now', postStringsHandler (postStringsHandler m (create v) now).1 (create v) now'
             = ((postStringsHandler m (create v) now).1,
                writeJSON StatusConflict (BError "string already exists in the system"))).
Proof.
  intros Hfree.
  assert (Hpost : postStringsHandler m (create v) now
                  = (<[computeHash v := record_of v now]> m,
                     writeJSON StatusCreated (BItem (record_of v now)))).
  { rewrite postStringsHandler_create, bool_decide_false; [done |].
    rewrite Hfree. by intros [? ?]. }
  rewrite Hpost. cbn [fst]. split_and!.
  - done.
  - intros k Hk. by rewrite lookup_insert_ne.
  - intros Hv. by rewrite getStringByValueHandler_value, lookup_insert_eq.
  - intros now'. rewrite postStringsHandler_create, bool_decide_true; [done |].
    rewrite lookup_insert_eq. by eexists.
Qed.

(** X6.  A DELETE for a stored non-empty value answers 204, removes the
    record under the hash of the value and nothing else; after it a GET and
    a second DELETE for the value answer 404, and the value can be created
    again. *)
Theorem delete_then_get (m : gmap (list Z) StoredString) (v : gostring)
    (item : StoredString) :
  v ≠ [] → m !! computeHash v = Some item →
  deleteStringHandler m (delete_value v)
  = (delete (computeHash v) m, WriteHeader StatusNoContent)
  ∧ (∀ k, k ≠ computeHash v →
       (deleteStringHandler m (delete_value v)).1 !! k = m !! k)
  ∧ getStringByValueHandler (deleteStringHandler m (delete_value v)).1 (get_value v)
    = writeJSON StatusNotFound (BError "string does not exist in the system")
  ∧ deleteStringHandler (deleteStringHandler m (delete_value v)).1 (delete_value v)
    = ((deleteStringHandler m (delete_value v)).1,
       writeJSON StatusNotFound (BError "string does not exist in the system"))
  ∧ (∀ now, (postStringsHandler (deleteStringHandler m (delete_value v)).1
               (create v) now).2
            = writeJSON StatusCreated (BItem (record_of v now))).
Proof.
  intros Hv Hitem.
  assert (Hdel : deleteStringHandler m (delete_value v)
                 = (delete (computeHash v) m, WriteHeader StatusNoContent)).
  { by rewrite deleteStringHandler_value, Hitem. }
  rewrite Hdel. cbn [fst]. split_and!.
  - done.
  - intros k Hk. by rewrite lookup_delete_ne.
  - by rewrite getStringByValueHandler_value, lookup_delete_eq.
  - by rewrite deleteStringHandler_value, lookup_delete_eq.
  - intros now. rewrite postStringsHandler_create, bool_decide_false; [done |].
    rewrite lookup_delete_eq. by intros [? ?].
Qed.

(** X7.  A DELETE for a value that is not stored answers 404 and leaves
    the map as it is.  The empty value is a special case on both paths: it
    can be created like any other value, but a GET or DELETE whose path
    holds the empty value is answered 400 whatever the map holds, so the
    record of the empty string cannot be read or removed by its value. *)
Theorem absent_and_empty_values (m : gmap (list Z) StoredString) :
  (∀ v, v ≠ [] → m !! computeHash v = None →
     deleteStringHandler m (delete_value v)
     = (m, writeJSON StatusNotFound (BError "string does not exist in the system"))
     ∧ getStringByValueHandler m (get_value v)
       = writeJSON StatusNotFound (BError "string does not exist in the system"))
  ∧ (∀ now, m !! computeHash [] = None →
       (postStringsHandler m (create []) now).2
       = writeJSON StatusCreated (BItem (record_of [] now)))
  ∧ getStringByValueHandler m (get_value [])
    = writeJSON StatusBadRequest (BError "missing string value in path")
  ∧ deleteStringHandler m (delete_value [])
    = (m, writeJSON StatusBadRequest (BError "missing string value in path")).
Proof.
  split_and!.
  - intros v Hv Hfree.
    by rewrite deleteStringHandler_value, getStringByValueHandler_value, Hfree.
  - intros now Hfree. rewrite postStringsHandler_create, bool_decide_false; [done |].
    rewrite Hfree. by intros [? ?].
  - reflexivity.
  - reflexivity.
Qed.

(** X8.  In every state the server can reach, whatever the schedule, a
    record sits under its own id, its id is its [sha256_hash] property and
    the hash of its value, its properties are the analysis of its value, and
    the same holds of the records that wait to be stored. *)
Theorem stored_records_are_analyses (s : server) :
  reachable s →
  (∀ k item, store s !! k = Some item →
     ID item = k ∧ ID item = SHA256Hash (Props item)
     ∧ ID item = computeHash (Value item)
     ∧ Props item = analyzeString (Value item))
  ∧ (∀ item, item ∈ waiting s →
       ID item = computeHash (Value item) ∧ Props item = analyzeString (Value item)).
Proof.
  intros [Hst Hw]%reachable_inv. split.
  - intros k item Hk. destruct (Hst k item Hk) as [[Hp Hid] Hkey].
    split_and!; try done. by rewrite Hp.
  - intros item Hin. rewrite Forall_forall in Hw.
    by destruct (Hw item Hin).
Qed.

End store_properties.

(** *** The structured filters *)

(** The flag [ok] of lines 239-263, overwritten by each failing test, is
    the conjunction of the negated tests. *)
Lemma filter_ok_andb (f : Filter) (item : StoredString) :
  filter_ok f item
  = from_option (λ b, negb (bool_decide (IsPalindrome (Props item) ≠ b))) true
      (filterIsPalindrome f)
    && from_option (λ n, negb (bool_decide (Length (Props item) < n))) true
         (minLength f)
    && from_option (λ n, negb (bool_decide (Length (Props item) > n))) true
         (maxLength f)
    && from_option (λ n, negb (bool_decide (WordCount (Props item) ≠ n))) true
         (wordCountFilter f)
    && from_option (found_character (CharacterFrequencyMap (Props item))) true
         (containsCharacter f).
Proof.
  unfold filter_ok.
  destruct (filterIsPalindrome f) as [b |], (minLength f) as [mn |],
    (maxLength f) as [mx |], (wordCountFilter f) as [wc |],
    (containsCharacter f) as [c |]; cbn [from_option];
    repeat match goal with
      | |- context [bool_decide ?P] => destruct (bool_decide P)
      | |- context [found_character ?m ?c] => destruct (found_character m c)
      end; reflexivity.
Qed.

Lemma from_option_true {A} (P : A → bool) (o : option A) :
  from_option P true o = true ↔ ∀ x, o = Some x → P x = true.
Proof. destruct o as [x |]; simpl; naive_solver. Qed.

(** X10.  The flag [ok] that lines 239-263 compute for a record, by
    overwriting it once for each filter that fails, is the conjunction of
    the filters that are set: the palindrome flag equals the one asked for,
    the length is within the two bounds, both inclusive, the word count is
    the one asked for and the character is found.  With a minimum above the
    maximum no record passes. *)
Theorem filter_ok_conjunction (f : Filter) (item : StoredString) :
  (filter_ok f item = true
   ↔ (∀ b, filterIsPalindrome f = Some b → IsPalindrome (Props item) = b)
     ∧ (∀ n, minLength f = Some n → n ≤ Length (Props item))
     ∧ (∀ n, maxLength f = Some n → Length (Props item) ≤ n)
     ∧ (∀ n, wordCountFilter f = Some n → WordCount (Props item) = n)
     ∧ (∀ c, containsCharacter f = Some c →
          found_character (CharacterFrequencyMap (Props item)) c = true))
  ∧ (∀ a b, minLength f = Some a → maxLength f = Some b → b < a →
       filter_ok f item = false).
Proof.
  assert (Hiff : filter_ok f item = true
    ↔ (∀ b, filterIsPalindrome f = Some b → IsPalindrome (Props item) = b)
      ∧ (∀ n, minLength f = Some n → n ≤ Length (Props item))
      ∧ (∀ n, maxLength f = Some n → Length (Props item) ≤ n)
      ∧ (∀ n, wordCountFilter f = Some n → WordCount (Props item) = n)
      ∧ (∀ c, containsCharacter f = Some c →
           found_character (CharacterFrequencyMap (Props item)) c = true)).
  { rewrite filter_ok_andb, !andb_true_iff, !from_option_true.
    setoid_rewrite negb_true_iff. setoid_rewrite bool_decide_eq_false.
    split.
    - intros ((((H1 & H2) & H3) & H4) & H5). split_and!; [| | | | done].
      + intros b Hb. by apply dec_stable, H1.
      + intros n Hn. specialize (H2 n Hn). lia.
      + intros n Hn. specialize (H3 n Hn). lia.
      + intros n Hn. by apply dec_stable, H4.
    - intros (H1 & H2 & H3 & H4 & H5). split_and!; [| | | | done].
      + intros b Hb Hne. by apply Hne, H1.
      + intros n Hn. specialize (H2 n Hn). lia.
      + intros n Hn. specialize (H3 n Hn). lia.
      + intros n Hn Hne. by apply Hne, H4. }
  split; [exact Hiff |].
  intros a b Ha Hb Hab. apply not_true_is_false. intros Hok.
  apply Hiff in Hok as (_ & H2 & H3 & _).
  specialize (H2 _ Ha). specialize (H3 _ Hb). lia.
Qed.

(** *** Reading and reporting the filters *)

Lemma Atoi_range (v : list Z) (n : Z) : Atoi v = Some n → min_int ≤ n ≤ max_int.
Proof.
  unfold Atoi. destruct v as [| c t]; [done |].
  destruct (if _ || _ then t else c :: t) as [| d ds]; [done |].
  destruct (digits_value 0 (d :: ds)) as [m |]; [| done].
  case_bool_decide; [| done]. by intros [= <-].
Qed.

Lemma int_param_Ok (v : list Z) (o : option Z) :
  int_param v = Ok o →
  (o = None ↔ v = []) ∧ (∀ n, o = Some n → 0 ≤ n ≤ max_int ∧ Atoi v = Some n).
Proof.
  unfold int_param. case_bool_decide as Hv; [intros [= <-]; by split |].
  destruct (Atoi v) as [x |] eqn:Hx; [| done].
  case_bool_decide; [done |]. intros [= <-].
  apply Atoi_range in Hx as Hr. split; [naive_solver |].
  intros n [= <-]. split; [lia | done].
Qed.

Section filter_properties.
Context `{Runtime}.

(** X11.  A filter that [getAllStringsHandler] accepts has a field set
    exactly for the parameters that are not empty; its numeric fields are
    what [strconv.Atoi] reads from the parameter, never negative and within
    the [int] range, and its character is the single code point of the
    parameter. *)
Theorem read_filter_accepted (r : list_request) (f : Filter) :
  read_filter r = Ok f →
  (filterIsPalindrome f = None ↔ get_is_palindrome r = [])
  ∧ (minLength f = None ↔ get_min_length r = [])
  ∧ (maxLength f = None ↔ get_max_length r = [])
  ∧ (wordCountFilter f = None ↔ get_word_count r = [])
  ∧ (containsCharacter f = None ↔ get_contains_character r = [])
  ∧ (∀ n, minLength f = Some n → 0 ≤ n ≤ max_int ∧ Atoi (get_min_length r) = Some n)
  ∧ (∀ n, maxLength f = Some n → 0 ≤ n ≤ max_int ∧ Atoi (get_max_length r) = Some n)
  ∧ (∀ n, wordCountFilter f = Some n →
       0 ≤ n ≤ max_int ∧ Atoi (get_word_count r) = Some n)
  ∧ (∀ c, containsCharacter f = Some c → get_contains_character r = [c]).
Proof.
  unfold read_filter.
  destruct (if bool_decide (get_is_palindrome r = []) then _ else _)
    as [fp | []] eqn:Hfp; [| done].
  destruct (int_param (get_min_length r)) as [mn | []] eqn:Hmn; [| done].
  destruct (int_param (get_max_length r)) as [mx | []] eqn:Hmx; [| done].
  destruct (int_param (get_word_count r)) as [wc | []] eqn:Hwc; [| done].
  apply int_param_Ok in Hmn as [Hmn1 Hmn2], Hmx as [Hmx1 Hmx2], Hwc as [Hwc1 Hwc2].
  assert (Hfp' : fp = None ↔ get_is_palindrome r = []).
  { revert Hfp. case_bool_decide; [naive_solver |].
    destruct (parseBoolParam _); naive_solver. }
  destruct (get_contains_character r) as [| c [| c' t]]; [| | done];
    intros [= <-]; cbn; split_and!; try done; naive_solver.
Qed.

Lemma filtersApplied_lookup (f : Filter) :
  filtersApplied f !! "is_palindrome" = DBool <$> filterIsPalindrome f
  ∧ filtersApplied f !! "min_length" = DInt <$> minLength f
  ∧ filtersApplied f !! "max_length" = DInt <$> maxLength f
  ∧ filtersApplied f !! "word_count" = DInt <$> wordCountFilter f
  ∧ filtersApplied f !! "contains_character"
    = (λ c, DString [c]) <$> containsCharacter f.
Proof.
  unfold filtersApplied.
  destruct (filterIsPalindrome f) as [b |], (minLength f) as [mn |],
    (maxLength f) as [mx |], (wordCountFilter f) as [wc |],
    (containsCharacter f) as [c |];
    split_and!; by simplify_map_eq.
Qed.

(** X12.  The [filters_applied] object holds a key exactly for the fields
    of the filter that are set, each with the value of its field, and no
    other key: it has as many keys as the filter has fields set. *)
Theorem filtersApplied_reports_set_fields (f : Filter) :
  filtersApplied f !! "is_palindrome" = DBool <$> filterIsPalindrome f
  ∧ filtersApplied f !! "min_length" = DInt <$> minLength f
  ∧ filtersApplied f !! "max_length" = DInt <$> maxLength f
  ∧ filtersApplied f !! "word_count" = DInt <$> wordCountFilter f
  ∧ filtersApplied f !! "contains_character"
    = (λ c, DString [c]) <$> containsCharacter f
  ∧ (∀ k, k ∉ ["is_palindrome"; "min_length"; "max_length"; "word_count";
               "contains_character"]%string → filtersApplied f !! k = None)
  ∧ size (filtersApplied f)
    = (length (option_list (filterIsPalindrome f))
       + length (option_list (minLength f)) + length (option_list (maxLength f))
       + length (option_list (wordCountFilter f))
       + length (option_list (containsCharacter f)))%nat.
Proof.
  destruct (filtersApplied_lookup f) as (L1 & L2 & L3 & L4 & L5).
  split_and!; try done.
  - unfold filtersApplied. intros k Hk. rewrite !not_elem_of_cons in Hk.
    destruct Hk as (? & ? & ? & ? & ? & _).
    destruct (filterIsPalindrome f) as [b |], (minLength f) as [mn |],
      (maxLength f) as [mx |], (wordCountFilter f) as [wc |],
      (containsCharacter f) as [c |]; by simplify_map_eq.
  - unfold filtersApplied.
    destruct (filterIsPalindrome f) as [b |], (minLength f) as [mn |],
      (maxLength f) as [mx |], (wordCountFilter f) as [wc |],
      (containsCharacter f) as [c |]; vm_compute; reflexivity.
Qed.

Lemma items_elem_of (m : gmap (list Z) StoredString) (item : StoredString) :
  item ∈ items m ↔ ∃ k, m !! k = Some item.
Proof.
  unfold items. rewrite list_elem_of_fmap. split.
  - intros ([k i] & -> & Hk). apply elem_of_map_to_list in Hk. eauto.
  - intros [k Hk]. exists (k, item). split; [done |]. by apply elem_of_map_to_list.
Qed.

Lemma filter_all (f : Filter) (l : list StoredString) :
  filterIsPalindrome f = None → minLength f = None → maxLength f = None →
  wordCountFilter f = None → containsCharacter f = None →
  filter (λ item, filter_ok f item = true) l = l.
Proof.
  intros H1 H2 H3 H4 H5. induction l as [| i l IH]; [done |].
  rewrite filter_cons, decide_True; [by rewrite IH |].
  unfold filter_ok. by rewrite H1, H2, H3, H4, H5.
Qed.

Lemma items_of_reachable (s : server) :
  reachable s →
  NoDup (items (store s))
  ∧ (∀ item, item ∈ items (store s) ↔ store s !! ID item = Some item).
Proof.
  intros [Hst _]%reachable_inv. split.
  - unfold items. apply NoDup_fmap_2_strong; [| apply NoDup_map_to_list].
    intros [k1 i1] [k2 i2] H1%elem_of_map_to_list H2%elem_of_map_to_list Heq.
    simpl in Heq. subst i2.
    destruct (Hst _ _ H1) as [_ <-], (Hst _ _ H2) as [_ <-]. done.
  - intros item. rewrite items_elem_of. split.
    + intros [k Hk]. by destruct (Hst _ _ Hk) as [_ ->].
    + eauto.
Qed.

(** X13.  A GET on [/strings] without parameters answers 200 with every
    record of the map, once for each key, their number as [count] and an
    empty [filters_applied]. *)
Theorem list_all_lists_every_record (m : gmap (list Z) StoredString) :
  getAllStringsHandler m list_all
  = writeJSON StatusOK (BList (items m) (Z.of_nat (size m)) ∅)
  ∧ length (items m) = size m
  ∧ (∀ item, item ∈ items m ↔ ∃ k, m !! k = Some item).
Proof.
  assert (Hlen : length (items m) = size m).
  { unfold items. by rewrite length_fmap, length_map_to_list. }
  split_and!; [| done | apply items_elem_of].
  assert (Hread : read_filter list_all
                  = Ok {| filterIsPalindrome := None; minLength := None;
                          maxLength := None; wordCountFilter := None;
                          containsCharacter := None |}) by reflexivity.
  unfold getAllStringsHandler. rewrite Hread.
  rewrite bool_decide_false by (intros Hne; by apply Hne).
  by rewrite filter_all, Hlen by done.
Qed.

(** X14.  In every state the server can reach, a GET on [/strings] whose
    parameters are accepted answers 200 with exactly the stored records
    that pass the filter, each one once, with their number as [count] and
    the filter as [filters_applied]. *)
Theorem listing_is_the_filtered_store (s : server) (r : list_request) (f : Filter) :
  reachable s → list_method r = GET → read_filter r = Ok f →
  ∃ results,
    getAllStringsHandler (store s) r
    = writeJSON StatusOK
        (BList results (Z.of_nat (length results)) (filtersApplied f))
    ∧ NoDup results
    ∧ (∀ item, item ∈ results
               ↔ store s !! ID item = Some item ∧ filter_ok f item = true).
Proof.
  intros [Hnd Hin]%items_of_reachable Hm Hread.
  exists (filter (λ item, filter_ok f item = true) (items (store s))). split_and!.
  - unfold getAllStringsHandler. rewrite Hread, Hm.
    by rewrite bool_decide_false by (intros Hne; by apply Hne).
  - by apply NoDup_filter.
  - intros item. rewrite list_elem_of_filter, Hin. naive_solver.
Qed.

(** X15.  In every state the server can reach, a GET on
    [/strings/filter-by-natural-language] whose query translates answers 200
    with exactly the stored records that pass the translated filter, each
    one once, with their number as [count], the query as it was sent and
    the translated filter. *)
Theorem interpreted_listing_is_the_filtered_store (s : server) (r : nl_request)
    (parsed : gmap string dynamic) :
  reachable s → nl_method r = GET → parseNaturalLanguage (nl_query r) = Ok parsed →
  ∃ results,
    naturalLanguageHandler (store s) r
    = writeJSON StatusOK
        (BInterpreted results (Z.of_nat (length results)) (nl_query r) parsed)
    ∧ NoDup results
    ∧ (∀ item, item ∈ results
               ↔ store s !! ID item = Some item ∧ parsed_ok parsed item = true).
Proof.
  intros [Hnd Hin]%items_of_reachable Hm Hparse.
  exists (applyParsedFilters (store s) parsed). split_and!.
  - unfold naturalLanguageHandler. rewrite Hm.
    rewrite bool_decide_false by (intros Hne; by apply Hne).
    rewrite Hparse. rewrite bool_decide_false; [done |].
    intros Hq. rewrite Hq in Hparse. discriminate Hparse.
  - by apply NoDup_filter.
  - intros item. unfold applyParsedFilters.
    rewrite list_elem_of_filter, Hin. naive_solver.
Qed.

(** X16.  The two evaluators on the same filter.  Given the
    [filters_applied] object of a filter, the evaluator of the translated
    filters decides as the structured one when no character is asked for,
    and accepts every record the structured one accepts when one is: its
    character test, by case folding, is the weaker one. *)
Theorem evaluators_on_reported_filters (f : Filter) (item : StoredString) :
  well_formed item →
  (containsCharacter f = None →
   parsed_ok (filtersApplied f) item = filter_ok f item)
  ∧ (filter_ok f item = true → parsed_ok (filtersApplied f) item = true).
Proof.
  intros [Hprops _].
  destruct (filtersApplied_lookup f) as (L1 & L2 & L3 & L4 & L5).
  assert (Hparsed : parsed_ok (filtersApplied f) item
    = from_option (λ b, negb (bool_decide (IsPalindrome (Props item) ≠ b))) true
        (filterIsPalindrome f)
      && from_option (λ n, negb (bool_decide (Length (Props item) < n))) true
           (minLength f)
      && from_option (λ n, negb (bool_decide (Length (Props item) > n))) true
           (maxLength f)
      && from_option (λ n, negb (bool_decide (WordCount (Props item) ≠ n))) true
           (wordCountFilter f)
      && from_option (λ c, found_folded (CharacterFrequencyMap (Props item)) [c]) true
           (containsCharacter f)).
  { unfold parsed_ok. rewrite L1, L2, L3, L4, L5.
    destruct (containsCharacter f) as [c |];
      cbn [from_option fmap option_fmap option_map Sprintf_v];
      [rewrite (bool_decide_false ([c] = [])) by done |];
      destruct (filterIsPalindrome f) as [b |], (minLength f) as [mn |],
        (maxLength f) as [mx |], (wordCountFilter f) as [wc |];
      cbn [from_option fmap option_fmap option_map];
      repeat match goal with
        | |- context [bool_decide ?P] => destruct (bool_decide P)
        | |- context [found_folded ?m ?c] => destruct (found_folded m c)
        end; reflexivity. }
  rewrite Hparsed, filter_ok_andb. split.
  - by intros ->.
  - rewrite !andb_true_iff. intros ((((H1 & H2) & H3) & H4) & H5).
    split_and!; try done.
    destruct (containsCharacter f) as [c |]; [| done]. cbn [from_option] in *.
    rewrite Hprops in *. cbn [CharacterFrequencyMap analyzeString] in *.
    apply found_character_spec in H5. apply found_folded_spec.
    exists c. split; [done |]. cbn. unfold rune_EqualFold.
    by rewrite bool_decide_true.
Qed.

(** X17.  The character test of the translated filters on an ASCII value:
    for a lowercase letter it passes exactly when the value holds the letter
    or its capital. *)
Theorem translated_contains_ascii (s now : gostring) (c : Z) :
  Forall (λ r, 0 ≤ r < 128) s → 97 ≤ c ≤ 122 →
  parsed_ok {["contains_character" := DString [c]]} (record_of s now) = true
  ↔ c ∈ s ∨ c - 32 ∈ s.
Proof.
  intros Hs Hc. unfold parsed_ok. simplify_map_eq.
  cbn [record_of post_item Props CharacterFrequencyMap analyzeString].
  assert (Hfold : found_folded (charFreqMap s) [c] = true ↔ c ∈ s ∨ c - 32 ∈ s).
  { rewrite found_folded_spec. rewrite Forall_forall in Hs. split.
    - intros (r & Hr & Heq). specialize (Hs r Hr). revert Heq. cbn.
      unfold rune_EqualFold. case_bool_decide as Hrc; [subst; by left |].
      rewrite bool_decide_true by lia. rewrite andb_true_r, andb_true_iff.
      intros [Hlo%bool_decide_eq_true Hhi%bool_decide_eq_true].
      right. replace (c - 32) with r by lia. done.
    - intros [Hin | Hin].
      + exists c. split; [done |]. cbn. unfold rune_EqualFold.
        by rewrite bool_decide_true.
      + exists (c - 32). split; [done |]. cbn. unfold rune_EqualFold.
        rewrite bool_decide_false by lia. rewrite bool_decide_true by lia.
        rewrite andb_true_r. apply andb_true_iff.
        split; apply bool_decide_eq_true; lia. }
  destruct (found_folded (charFreqMap s) [c]); cbn [negb]; naive_solver.
Qed.

End filter_properties.

(** *** The values the rules hand on *)

(** The number a numeric pattern hands on is read from digits only: it is
    never negative. *)
Lemma numeral_found_digits (re : regex) (q : list Z) (n : Z) :
  NumSubexp re = 1%nat →
  (∀ prev s s' cs, match_here re prev s = Some (s', cs) →
     ∃ c ds, Forall (λ c, class_d c = true) (c :: ds) ∧ cs = {[1%nat := c :: ds]}) →
  numeral_found re q = Some n → 0 ≤ n ≤ max_int.
Proof.
  intros Hsub Hgroup. unfold numeral_found, FindStringSubmatch, doExecute.
  destruct (find_from _ _ _ _) as [[[m0 m1] cs] |] eqn:Hfind; [| done].
  apply find_from_Some in Hfind as (prev' & s0 & s' & _ & Hm).
  apply Hgroup in Hm as (c & ds & Hall & ->).
  rewrite Hsub. cbn [seq fmap list_fmap]. rewrite lookup_singleton_eq. cbn [default].
  apply Forall_cons in Hall as [Hc _]. apply bool_decide_eq_true in Hc.
  unfold id, Atoi.
  rewrite (bool_decide_false (c = 45)), (bool_decide_false (c = 43)) by lia.
  cbn [orb]. destruct (digits_value 0 (c :: ds)) as [v |] eqn:Hv; [| done].
  case_bool_decide as Hr; [| done]. intros [= <-].
  pose proof (digits_value_nonneg _ _ _ (Z.le_refl 0) Hv). lia.
Qed.

Lemma numeral_found_range (q : list Z) (n : Z) :
  (numeral_found reLonger q = Some n → 0 ≤ n ≤ max_int)
  ∧ (numeral_found reLonger2 q = Some n → 0 ≤ n ≤ max_int)
  ∧ (numeral_found reWords q = Some n → 0 ≤ n ≤ max_int).
Proof.
  split_and!; apply numeral_found_digits; try done.
  - apply reLonger_group.
  - apply reLonger2_group.
  - apply reWords_group.
Qed.

(** [n + 1] on an [int] that is not negative. *)
Lemma wrap_succ_range (n : Z) :
  0 ≤ n ≤ max_int → 1 ≤ wrap (n + 1) ≤ max_int ∨ wrap (n + 1) = min_int.
Proof.
  intros Hn. destruct (decide (n = max_int)) as [-> | Hne].
  - right. reflexivity.
  - left. rewrite wrap_small by (unfold min_int, max_int in *; lia). lia.
Qed.

(** One alternative of [reContains], with the class of what it captures. *)
Lemma contains_alternative_letter (l : list Z) (n : nat) (prev : option Z)
    (s : list Z) (res : list Z * gmap nat (list Z)) :
  rmatch (RCat (RLit l) (RCat (RPlus class_s) (RGroup n (RClass class_alpha))))
    prev s ∅ (λ _ s' cs, Some (s', cs)) = Some res →
  ∃ c, class_alpha c = true ∧ res.2 = {[n := [c]]}.
Proof.
  intros Hm.
  apply rmatch_cat_groupless in Hm as (p1 & s1 & Hm); [| done].
  apply rmatch_cat_groupless in Hm as (p2 & s2 & Hm); [| done].
  simpl in Hm. destruct s2 as [| c s3]; [done |].
  destruct (class_alpha c) eqn:Hc; [| done].
  injection Hm as <-. exists c. simpl. by rewrite consumed_one.
Qed.

Lemma letter_found_letter (q mi : list Z) :
  letter_found q = Some mi → ∃ c, mi = [c] ∧ class_alpha c = true.
Proof.
  unfold letter_found, FindStringSubmatch, doExecute.
  destruct (find_from _ _ _ _) as [[[m0 m1] cs] |] eqn:Hfind; [| done].
  apply find_from_Some in Hfind as (prev' & s0 & s' & _ & Hm).
  unfold match_here, reContains in Hm.
  repeat (apply rmatch_alt_Some in Hm as [Hm | Hm]).
  all: apply contains_alternative_letter in Hm as (c & Hc & Hcs); simpl in Hcs;
    subst cs; vm_compute; intros [= <-]; eauto.
Qed.

Lemma strings_ToLower_letter `{Runtime} (c : Z) :
  class_alpha c = true →
  ∃ c', strings_ToLower [c] = [c'] ∧ 97 ≤ c' ≤ 122.
Proof.
  unfold class_alpha. rewrite orb_true_iff, !bool_decide_eq_true. intros Hc.
  unfold strings_ToLower, strings_Map, unicode_ToLower, MaxASCII. cbn [fmap list_fmap].
  rewrite bool_decide_true by lia.
  case_bool_decide.
  - exists (c + (97 - 65)). rewrite filter_cons, decide_True by lia.
    split; [done | lia].
  - exists c. rewrite filter_cons, decide_True by lia. split; [done | lia].
Qed.

Section translator_properties.
Context `{Runtime}.

(** Rule 4 in terms of the letter found. *)
Lemma rule_contains_letter (parsed : gmap string dynamic) (q : list Z) :
  rule_contains parsed q
  = match letter_found q with
    | Some mi => <["contains_character" := DString (strings_ToLower mi)]> parsed
    | None => parsed
    end.
Proof.
  unfold rule_contains, letter_found.
  destruct (reContains_submatch q) as [-> | (m & i & mi & -> & Hlen & Hfind)].
  - by rewrite bool_decide_false by (simpl; lia).
  - rewrite bool_decide_true by lia. by rewrite Hfind.
Qed.

(** The map of the rules, key by key: which rule decides each field. *)
Lemma apply_rules_lookup (q : list Z) :
  apply_rules q !! "is_palindrome"
  = (if strings_Contains q (str "palindrom") then Some (DBool true) else None)
  ∧ apply_rules q !! "word_count"
    = (if strings_Contains q (str "single word")
          || strings_Contains q (str "single-word")
          || strings_Contains q (str "one word")
       then Some (DInt 1) else DInt <$> numeral_found reWords q)
  ∧ apply_rules q !! "min_length"
    = (λ n, DInt (wrap (n + 1)))
      <$> (match numeral_found reLonger2 q with
           | Some n => Some n
           | None => numeral_found reLonger q
           end)
  ∧ apply_rules q !! "contains_character"
    = (if strings_Contains q (str "first vowel") then Some (DString (str "a"))
       else (λ mi, DString (strings_ToLower mi)) <$> letter_found q)
  ∧ (∀ k, k ∉ ["is_palindrome"; "word_count"; "min_length";
               "contains_character"]%string → apply_rules q !! k = None).
Proof.
  unfold apply_rules. split_and!.
  - rewrite rule_n_words_lookup, rule_first_vowel_lookup, rule_contains_lookup,
      !rule_longer_lookup by done.
    unfold rule_palindrome. destruct (strings_Contains q (str "palindrom")).
    + by rewrite lookup_insert_eq.
    + by rewrite rule_single_word_lookup.
  - set (p5 := rule_first_vowel _ q).
    assert (Hp5 : p5 !! "word_count"
                  = if strings_Contains q (str "single word")
                       || strings_Contains q (str "single-word")
                       || strings_Contains q (str "one word")
                    then Some (DInt 1) else None).
    { unfold p5. rewrite rule_first_vowel_lookup, rule_contains_lookup,
        !rule_longer_lookup, rule_palindrome_lookup by done.
      unfold rule_single_word. destruct (_ || _ || _); by simplify_map_eq. }
    destruct (_ || _ || _).
    + unfold rule_n_words. by rewrite Hp5.
    + rewrite rule_n_words_numeral by done.
      destruct (numeral_found reWords q); by simplify_map_eq.
  - rewrite rule_n_words_lookup, rule_first_vowel_lookup, rule_contains_lookup by done.
    rewrite !rule_longer_numeral.
    destruct (numeral_found reLonger2 q), (numeral_found reLonger q);
      simplify_map_eq; try done.
    all: by rewrite rule_palindrome_lookup, rule_single_word_lookup.
  - rewrite rule_n_words_lookup by done. unfold rule_first_vowel.
    destruct (strings_Contains q (str "first vowel")) eqn:Hfv; cbn [orb].
    + by rewrite lookup_insert_eq.
    + destruct (strings_Contains q (str "first vowel a")) eqn:Hfva.
      { apply (strings_Contains_prefix q (str "first vowel") (str " a")) in Hfva.
        congruence. }
      rewrite rule_contains_letter. destruct (letter_found q); simplify_map_eq.
      * done.
      * by rewrite !rule_longer_lookup, rule_palindrome_lookup,
          rule_single_word_lookup.
  - intros k Hk. rewrite !not_elem_of_cons in Hk.
    destruct Hk as (? & ? & ? & ? & _).
    rewrite rule_n_words_lookup, rule_first_vowel_lookup, rule_contains_lookup,
      !rule_longer_lookup, rule_palindrome_lookup, rule_single_word_lookup by done.
    apply lookup_empty.
Qed.

Lemma parseNaturalLanguage_Ok (query : list Z) (parsed : gmap string dynamic) :
  parseNaturalLanguage query = Ok parsed → parsed = apply_rules (normalize query).
Proof.
  rewrite parseNaturalLanguage_cases. repeat case_bool_decide; congruence.
Qed.

(** X18.  Which rule decides each field of a translated filter.  The
    single-word phrases win over a counted "N word"; the numeral of the
    pattern that ends in "characters" wins over the numeral of the shorter
    pattern; "first vowel" wins over a letter asked for with "contain";
    [is_palindrome] is set exactly when the stem "palindrom" occurs; and no
    other key is ever set. *)
Theorem translated_fields_by_rule (query : gostring) (parsed : gmap string dynamic) :
  parseNaturalLanguage query = Ok parsed →
  parsed !! "is_palindrome"
  = (if strings_Contains (normalize query) (str "palindrom")
     then Some (DBool true) else None)
  ∧ parsed !! "word_count"
    = (if strings_Contains (normalize query) (str "single word")
          || strings_Contains (normalize query) (str "single-word")
          || strings_Contains (normalize query) (str "one word")
       then Some (DInt 1) else DInt <$> numeral_found reWords (normalize query))
  ∧ parsed !! "min_length"
    = (λ n, DInt (wrap (n + 1)))
      <$> (match numeral_found reLonger2 (normalize query) with
           | Some n => Some n
           | None => numeral_found reLonger (normalize query)
           end)
  ∧ parsed !! "contains_character"
    = (if strings_Contains (normalize query) (str "first vowel")
       then Some (DString (str "a"))
       else (λ mi, DString (strings_ToLower mi)) <$> letter_found (normalize query))
  ∧ (∀ k, k ∉ ["is_palindrome"; "word_count"; "min_length";
               "contains_character"]%string → parsed !! k = None).
Proof. intros ->%parseNaturalLanguage_Ok. apply apply_rules_lookup. Qed.

(** The values the rules write. *)
Lemma apply_rules_shape (q : list Z) :
  (∀ v, apply_rules q !! "is_palindrome" = Some v → v = DBool true)
  ∧ (∀ v, apply_rules q !! "word_count" = Some v → ∃ n, v = DInt n ∧ 0 ≤ n ≤ max_int)
  ∧ (∀ v, apply_rules q !! "min_length" = Some v →
       ∃ n, v = DInt n ∧ (1 ≤ n ≤ max_int ∨ n = min_int))
  ∧ (∀ v, apply_rules q !! "contains_character" = Some v →
       ∃ c, v = DString [c] ∧ 97 ≤ c ≤ 122 ∧ Sprintf_v v ≠ []).
Proof.
  destruct (apply_rules_lookup q) as (-> & -> & -> & -> & _).
  split_and!.
  - intros v. destruct (strings_Contains _ _); naive_solver.
  - intros v. destruct (_ || _ || _).
    + intros [= <-]. exists 1. split; [done |]. unfold max_int. lia.
    + destruct (numeral_found reWords _) as [n |] eqn:Hn; [| done].
      intros [= <-]. exists n. split; [done |].
      by apply (proj2 (proj2 (numeral_found_range q n))).
  - intros v.
    destruct (numeral_found reLonger2 _) as [n |] eqn:Hn2.
    + intros [= <-]. eexists. split; [done |]. apply wrap_succ_range.
      by apply (proj1 (proj2 (numeral_found_range q n))).
    + destruct (numeral_found reLonger _) as [n |] eqn:Hn; [| done].
      intros [= <-]. eexists. split; [done |]. apply wrap_succ_range.
      by apply (proj1 (numeral_found_range q n)).
  - intros v. destruct (strings_Contains _ _).
    + intros [= <-]. exists 97. split; [done |]. split; [lia | done].
    + destruct (letter_found _) as [mi |] eqn:Hmi; [| done].
      intros [= <-]. apply letter_found_letter in Hmi as (c & -> & Hc).
      apply strings_ToLower_letter in Hc as (c' & -> & Hc'). eauto.
Qed.

(** X19.  The values of a translated filter.  [is_palindrome] is only ever
    [true]; [word_count] is an [int] from 0 to the largest [int];
    [contains_character] is one lowercase letter from a to z, so the
    evaluator never meets an empty text there; [min_length] is an [int] of
    at least 1, except that the numeral 9223372036854775807 makes [n + 1]
    wrap around to the smallest [int]. *)
Theorem translated_values_shape (query : gostring) (parsed : gmap string dynamic) :
  parseNaturalLanguage query = Ok parsed →
  (∀ v, parsed !! "is_palindrome" = Some v → v = DBool true)
  ∧ (∀ v, parsed !! "word_count" = Some v → ∃ n, v = DInt n ∧ 0 ≤ n ≤ max_int)
  ∧ (∀ v, parsed !! "min_length" = Some v →
       ∃ n, v = DInt n ∧ (1 ≤ n ≤ max_int ∨ n = min_int))
  ∧ (∀ v, parsed !! "contains_character" = Some v →
       ∃ c, v = DString [c] ∧ 97 ≤ c ≤ 122 ∧ Sprintf_v v ≠ []).
Proof. intros ->%parseNaturalLanguage_Ok. apply apply_rules_shape. Qed.

(** X20.  What a translated filter asks of a record.  The flag [ok] that
    [applyParsedFilters] computes for a filter the translator returned is
    true exactly when the record is a palindrome if [is_palindrome] is set,
    has the word count of [word_count], has at least [min_length] code
    points and holds, up to case folding, the letter of
    [contains_character]: the branches for [float64] values, for
    [max_length] and for an empty character text are never taken. *)
Theorem translated_filter_meaning (query : gostring) (parsed : gmap string dynamic)
    (item : StoredString) :
  parseNaturalLanguage query = Ok parsed →
  parsed_ok parsed item = true
  ↔ (is_Some (parsed !! "is_palindrome") → IsPalindrome (Props item) = true)
    ∧ (∀ n, parsed !! "word_count" = Some (DInt n) → WordCount (Props item) = n)
    ∧ (∀ n, parsed !! "min_length" = Some (DInt n) → n ≤ Length (Props item))
    ∧ (∀ c, parsed !! "contains_character" = Some (DString [c]) →
         found_folded (CharacterFrequencyMap (Props item)) [c] = true).
Proof.
  intros ->%parseNaturalLanguage_Ok.
  destruct (apply_rules_shape (normalize query)) as (S1 & S2 & S3 & S4).
  unfold parsed_ok. rewrite apply_rules_no_max_length.
  destruct (apply_rules (normalize query) !! "is_palindrome") as [v1 |];
    [rewrite (S1 v1 eq_refl) |];
  (destruct (apply_rules (normalize query) !! "word_count") as [v2 |];
    [destruct (S2 v2 eq_refl) as (n2 & -> & _) |]);
  (destruct (apply_rules (normalize query) !! "min_length") as [v3 |];
    [destruct (S3 v3 eq_refl) as (n3 & -> & _) |]);
  (destruct (apply_rules (normalize query) !! "contains_character") as [v4 |];
    [destruct (S4 v4 eq_refl) as (c4 & -> & _ & _); cbn [Sprintf_v];
     rewrite (bool_decide_false ([c4] = [])) by done;
     destruct (found_folded _ [c4]) eqn:Hfound |]);
  cbn [negb]; repeat case_bool_decide;
  lazymatch goal with
  | |- true = true ↔ _ =>
      split; [intros _ | done]; split_and!;
      [ intros [x Hx]; simplify_eq; destruct (IsPalindrome (Props item)); naive_solver
      | intros n Hn; by simplify_eq
      | intros n Hn; simplify_eq; lia
      | intros c Hc; by simplify_eq ]
  | |- false = true ↔ _ =>
      split; [done |]; intros (Q1 & Q2 & Q3 & Q4); exfalso
  end.
  all: try (specialize (Q1 ltac:(by eexists)); congruence).
  all: try (specialize (Q2 _ eq_refl); congruence).
  all: try (specialize (Q3 _ eq_refl); lia).
  all: try (specialize (Q4 _ eq_refl); congruence).
Qed.

End translator_properties.

(** *** White space around a text, and the case of its letters *)

Lemma TrimLeftFunc_app_blank (f : Z → bool) (pre s : list Z) :
  Forall (λ r, f r = true) pre → TrimLeftFunc f (pre ++ s) = TrimLeftFunc f s.
Proof. induction 1 as [| r pre Hr _ IH]; simpl; [done |]. by rewrite Hr. Qed.

Lemma TrimLeftFunc_app (f : Z → bool) (s t : list Z) :
  TrimLeftFunc f s ≠ [] → TrimLeftFunc f (s ++ t) = TrimLeftFunc f s ++ t.
Proof.
  induction s as [| c s IH]; simpl; [done |]. destruct (f c); [done | by intros _].
Qed.

Lemma TrimRightFunc_app_blank (f : Z → bool) (s post : list Z) :
  Forall (λ r, f r = true) post → TrimRightFunc f (s ++ post) = TrimRightFunc f s.
Proof.
  intros Hpost. unfold TrimRightFunc. rewrite reverse_app.
  by rewrite TrimLeftFunc_app_blank by (by apply Forall_reverse).
Qed.

Lemma TrimLeftFunc_nil (f : Z → bool) (s : list Z) :
  TrimLeftFunc f s = [] → Forall (λ r, f r = true) s.
Proof.
  induction s as [| c s IH]; simpl; [done |].
  destruct (f c) eqn:Hc; [| done]. intros Hs. constructor; auto.
Qed.

Lemma strings_TrimSpace_pad (pre s post : list Z) :
  Forall (λ r, unicode_IsSpace r = true) pre →
  Forall (λ r, unicode_IsSpace r = true) post →
  strings_TrimSpace (pre ++ s ++ post) = strings_TrimSpace s.
Proof.
  intros Hpre Hpost. unfold strings_TrimSpace.
  rewrite TrimLeftFunc_app_blank by done.
  destruct (TrimLeftFunc unicode_IsSpace s) as [| c t] eqn:Hs.
  - apply TrimLeftFunc_nil in Hs.
    by rewrite TrimLeftFunc_all by (by apply Forall_app).
  - rewrite TrimLeftFunc_app by (by rewrite Hs).
    rewrite Hs. by apply TrimRightFunc_app_blank.
Qed.

Lemma TrimLeftFunc_fmap (f : Z → bool) (g : Z → Z) (s : list Z) :
  Forall (λ r, f (g r) = f r) s →
  TrimLeftFunc f (g <$> s) = g <$> TrimLeftFunc f s.
Proof.
  induction 1 as [| r s Hr _ IH]; simpl; [done |]. rewrite Hr.
  by destruct (f r).
Qed.

Lemma TrimLeftFunc_Forall (P : Z → Prop) (f : Z → bool) (s : list Z) :
  Forall P s → Forall P (TrimLeftFunc f s).
Proof.
  induction 1 as [| r s Hr Hs IH]; simpl; [done |].
  destruct (f r); [done | by constructor].
Qed.

Lemma TrimRightFunc_fmap (f : Z → bool) (g : Z → Z) (s : list Z) :
  Forall (λ r, f (g r) = f r) s →
  TrimRightFunc f (g <$> s) = g <$> TrimRightFunc f s.
Proof.
  intros Hs. unfold TrimRightFunc.
  rewrite <- fmap_reverse, TrimLeftFunc_fmap by (by apply Forall_reverse).
  by rewrite fmap_reverse.
Qed.

Lemma TrimRightFunc_Forall (P : Z → Prop) (f : Z → bool) (s : list Z) :
  Forall P s → Forall P (TrimRightFunc f s).
Proof.
  intros Hs. unfold TrimRightFunc.
  by apply Forall_reverse, TrimLeftFunc_Forall, Forall_reverse.
Qed.

Section case_and_margin.
Context `{Runtime}.

Lemma unicode_ToLower_ascii (r : Z) :
  0 ≤ r ≤ 127 →
  0 ≤ unicode_ToLower r ≤ 127
  ∧ unicode_ToLower (unicode_ToLower r) = unicode_ToLower r
  ∧ unicode_IsSpace (unicode_ToLower r) = unicode_IsSpace r.
Proof.
  intros Hr. unfold unicode_ToLower, MaxASCII.
  rewrite (bool_decide_true (r ≤ 127)) by lia.
  case_bool_decide as Hup.
  - rewrite (bool_decide_true (r + (97 - 65) ≤ 127)) by lia.
    rewrite (bool_decide_false (65 ≤ r + (97 - 65) ≤ 90)) by lia.
    split; [lia |]. split; [done |].
    unfold unicode_IsSpace, MaxLatin1.
    rewrite (bool_decide_true (0 ≤ r + (97 - 65) ≤ 255)) by lia.
    rewrite (bool_decide_true (0 ≤ r ≤ 255)) by lia.
    rewrite !bool_decide_false; [done | |]; rewrite !elem_of_cons, elem_of_nil; lia.
  - rewrite (bool_decide_true (r ≤ 127)) by lia.
    by rewrite (bool_decide_false (65 ≤ r ≤ 90)) by done.
Qed.

Lemma strings_ToLower_ascii (s : list Z) :
  Forall (λ r, 0 ≤ r ≤ 127) s →
  strings_ToLower s = unicode_ToLower <$> s
  ∧ Forall (λ r, 0 ≤ r ≤ 127) (unicode_ToLower <$> s).
Proof.
  induction 1 as [| r s Hr _ [IH1 IH2]]; [done |].
  destruct (unicode_ToLower_ascii r Hr) as (Hlow & _ & _).
  unfold strings_ToLower, strings_Map in *. cbn [fmap list_fmap].
  rewrite filter_cons, decide_True by lia. split; [by f_equal | by constructor].
Qed.

Lemma normalize_ToLower_ascii (q : list Z) :
  Forall (λ r, 0 ≤ r ≤ 127) q → normalize (strings_ToLower q) = normalize q.
Proof.
  intros Hq. unfold normalize.
  destruct (strings_ToLower_ascii q Hq) as [-> Hlow].
  assert (Hsp : Forall (λ r, unicode_IsSpace (unicode_ToLower r) = unicode_IsSpace r) q).
  { eapply Forall_impl; [exact Hq |]. intros r Hr.
    by destruct (unicode_ToLower_ascii r Hr) as (_ & _ & ?). }
  unfold strings_TrimSpace.
  rewrite TrimLeftFunc_fmap by done.
  rewrite TrimRightFunc_fmap by (by apply TrimLeftFunc_Forall).
  set (t := TrimRightFunc unicode_IsSpace (TrimLeftFunc unicode_IsSpace q)).
  assert (Ht : Forall (λ r, 0 ≤ r ≤ 127) t)
    by (by apply TrimRightFunc_Forall, TrimLeftFunc_Forall).
  destruct (strings_ToLower_ascii t Ht) as [-> Hlt].
  destruct (strings_ToLower_ascii _ Hlt) as [-> _].
  rewrite <- list_fmap_compose. apply Forall_fmap_ext_1.
  eapply Forall_impl; [exact Ht |]. intros r Hr. simpl.
  by destruct (unicode_ToLower_ascii r Hr) as (_ & ? & _).
Qed.

Lemma parseNaturalLanguage_normalize (q q' : list Z) :
  normalize q = normalize q' → parseNaturalLanguage q = parseNaturalLanguage q'.
Proof. intros Hn. by rewrite !parseNaturalLanguage_cases, Hn. Qed.

(** X21.  The translator reads a query without regard to the white space
    around it and, for ASCII queries, without regard to the case of its
    letters: a query padded with Unicode white space translates as the bare
    query (to the same filter or the same error), and so do two ASCII
    queries with the same lowercase form. *)
Theorem translation_ignores_margin_and_case (query : gostring) :
  (∀ pre post,
     Forall (λ r, unicode_IsSpace r = true) pre →
     Forall (λ r, unicode_IsSpace r = true) post →
     parseNaturalLanguage (pre ++ query ++ post) = parseNaturalLanguage query)
  ∧ (∀ query',
       Forall (λ r, 0 ≤ r ≤ 127) query → Forall (λ r, 0 ≤ r ≤ 127) query' →
       strings_ToLower query = strings_ToLower query' →
       parseNaturalLanguage query = parseNaturalLanguage query').
Proof.
  split.
  - intros pre post Hpre Hpost. apply parseNaturalLanguage_normalize.
    unfold normalize. by rewrite strings_TrimSpace_pad.
  - intros query' Hq Hq' Heq. apply parseNaturalLanguage_normalize.
    by rewrite <- (normalize_ToLower_ascii query), <- (normalize_ToLower_ascii query'),
      Heq.
Qed.

(** X22.  The word count of a value does not change when Unicode white
    space is put before and after it. *)
Theorem wordCount_ignores_margin (pre s post : gostring) :
  Forall (λ r, unicode_IsSpace r = true) pre →
  Forall (λ r, unicode_IsSpace r = true) post →
  WordCount (analyzeString (pre ++ s ++ post)) = WordCount (analyzeString s).
Proof.
  intros Hpre Hpost. cbn [WordCount analyzeString]. unfold wordCount.
  by rewrite strings_TrimSpace_pad.
Qed.

End case_and_margin.

(** *** The identifier *)

Lemma hex_digit_range (n : Z) :
  0 ≤ n < 16 → 48 ≤ hex_digit n ≤ 57 ∨ 97 ≤ hex_digit n ≤ 102.
Proof. intros Hn. unfold hex_digit. case_bool_decide; lia. Qed.

Lemma hex_digit_inj (n n' : Z) :
  0 ≤ n < 16 → 0 ≤ n' < 16 → hex_digit n = hex_digit n' → n = n'.
Proof. intros Hn Hn'. unfold hex_digit. repeat case_bool_decide; lia. Qed.

Lemma hex_EncodeToString_inj (bs bs' : list Z) :
  Forall (λ b, 0 ≤ b < 256) bs → Forall (λ b, 0 ≤ b < 256) bs' →
  hex_EncodeToString bs = hex_EncodeToString bs' → bs = bs'.
Proof.
  intros Hbs. revert bs'. induction Hbs as [| b bs Hb _ IH]; intros bs' Hbs'.
  - by destruct bs'.
  - destruct Hbs' as [| b' bs' Hb' Hbs']; [done |].
    unfold hex_EncodeToString. cbn [mbind list_bind app].
    intros [= Hhi Hlo Hrest].
    apply hex_digit_inj in Hhi; [| by (split; [apply Z.div_pos | apply Z.div_lt_upper_bound]; lia) ..].
    apply hex_digit_inj in Hlo; [| by apply Z.mod_pos_bound ..].
    f_equal; [| by apply IH].
    rewrite (Z.div_mod b 16), (Z.div_mod b' 16) by lia. congruence.
Qed.

Section identifier.
Context `{Runtime}.

(** X23.  The identifier of a value spells the bytes of its digest with two
    lowercase hexadecimal digits each, and two values get the same
    identifier exactly when their digests are the same: the encoding adds no
    collision of its own. *)
Theorem computeHash_hex (s s' : gostring) :
  Forall (λ b, 0 ≤ b < 256) (sha256_Sum256 s) →
  Forall (λ b, 0 ≤ b < 256) (sha256_Sum256 s') →
  length (computeHash s) = (2 * length (sha256_Sum256 s))%nat
  ∧ Forall (λ c, 48 ≤ c ≤ 57 ∨ 97 ≤ c ≤ 102) (computeHash s)
  ∧ (computeHash s = computeHash s' ↔ sha256_Sum256 s = sha256_Sum256 s').
Proof.
  intros Hs Hs'. unfold computeHash. split_and!.
  - clear Hs. induction (sha256_Sum256 s) as [| b bs IH]; [done |].
    unfold hex_EncodeToString in *. cbn [mbind list_bind app length]. lia.
  - induction Hs as [| b bs Hb _ IH]; [constructor |].
    unfold hex_EncodeToString in *. cbn [mbind list_bind app].
    apply Forall_cons. split.
    { apply hex_digit_range.
      split; [apply Z.div_pos | apply Z.div_lt_upper_bound]; lia. }
    apply Forall_cons. split; [| exact IH].
    by apply hex_digit_range, Z.mod_pos_bound.
  - split; [by apply hex_EncodeToString_inj | by intros ->].
Qed.

End identifier.

(** *** When the map changes *)

Section store_changes.
Context `{Runtime}.

(** X24.  When the map changes.  Run as one piece, [postStringsHandler]
    answers 201 and adds one record, all others kept, or answers 405, 400,
    422 or 409 and leaves the map as it was; [deleteStringHandler] answers
    204 and removes one record, all others kept, or answers 405, 400 or 404
    and leaves the map as it was.  In the server, where the check and the
    write of a creation are two critical sections, every step either leaves
    the map as it was, or is the write of a creation, answered 201, which
    puts the record under its id and keeps every other key (one record more
    when the id was free, the same number, the record under the id
    replaced, when a racing creation had stored it in between), or is a
    DELETE answered 204, which removes one record. *)
Theorem store_changes_with_success :
  (∀ m r now,
     (code (postStringsHandler m r now).2 = StatusCreated
      ∧ size (postStringsHandler m r now).1 = S (size m)
      ∧ m ⊆ (postStringsHandler m r now).1)
     ∨ (code (postStringsHandler m r now).2 ∈
          [StatusMethodNotAllowed; StatusBadRequest; StatusUnprocessableEntity;
           StatusConflict]
        ∧ (postStringsHandler m r now).1 = m))
  ∧ (∀ m r,
       (code (deleteStringHandler m r).2 = StatusNoContent
        ∧ S (size (deleteStringHandler m r).1) = size m
        ∧ (deleteStringHandler m r).1 ⊆ m)
       ∨ (code (deleteStringHandler m r).2 ∈
            [StatusMethodNotAllowed; StatusBadRequest; StatusNotFound]
          ∧ (deleteStringHandler m r).1 = m))
  ∧ (∀ s e,
       store (exec s e) = store s
       ∨ (∃ item,
            answers (exec s e) = answers s ++ [writeJSON StatusCreated (BItem item)]
            ∧ store (exec s e) = <[ID item := item]> (store s)
            ∧ (∀ k, k ≠ ID item → store (exec s e) !! k = store s !! k)
            ∧ (store s !! ID item = None → size (store (exec s e)) = S (size (store s)))
            ∧ (is_Some (store s !! ID item) →
               size (store (exec s e)) = size (store s)))
       ∨ (∃ k,
            answers (exec s e) = answers s ++ [WriteHeader StatusNoContent]
            ∧ store (exec s e) = delete k (store s)
            ∧ is_Some (store s !! k)
            ∧ S (size (store (exec s e))) = size (store s)))
  ∧ (∃ s e item,
       reachable s
       ∧ answers (exec s e) = answers s ++ [writeJSON StatusCreated (BItem item)]
       ∧ size (store (exec s e)) = size (store s)
       ∧ store (exec s e) ≠ store s).
Proof.
  assert (Hdel : ∀ (m : gmap (list Z) StoredString) k,
            is_Some (m !! k) → S (size (delete k m)) = size m).
  { intros m k [item Hk]. rewrite map_size_delete, Hk.
    assert (size m ≠ 0%nat); [| lia]. apply map_size_ne_0_lookup. eauto. }
  split_and!.
  - intros m r now. unfold postStringsHandler, post_check.
    case_bool_decide; [right; split; [set_solver | done] |].
    destruct (post_body r) as [b |]; [| right; split; [set_solver | done]].
    unfold validateCreateBody.
    destruct (body_Value b) as [[n | bb | v | fl | o] |];
      try (right; split; [cbn; set_solver | done]).
    cbn [analyzeString SHA256Hash].
    case_bool_decide as Hex; [right; split; [cbn; set_solver | done] |].
    left. cbn [post_store post_item fst snd ID writeJSON code].
    assert (Hfree : m !! computeHash v = None).
    { destruct (m !! computeHash v) eqn:E; [| done]. exfalso. apply Hex. eauto. }
    split_and!; [done | by rewrite map_size_insert_None | by apply insert_subseteq].
  - intros m r. unfold deleteStringHandler.
    case_bool_decide; [right; split; [set_solver | done] |].
    destruct (path_decoded r) as [v |]; [| right; split; [cbn; set_solver | done]].
    case_bool_decide; [right; split; [cbn; set_solver | done] |].
    destruct (m !! computeHash v) as [item |] eqn:Hv;
      [| right; split; [cbn; set_solver | done]].
    left. cbn [fst snd WriteHeader code].
    split_and!; [done | apply Hdel; by eexists | apply delete_subseteq].
  - intros s e. destruct e as [r now | i | r | r | r | r]; simpl.
    + left. by destruct (post_check (store s) r).
    + destruct (waiting s !! i) as [item |]; [| by left].
      right. left. exists item. simpl. split_and!; try done.
      * intros k Hk. by rewrite lookup_insert_ne.
      * intros Hfree. by rewrite map_size_insert_None.
      * intros [old Hold]. by rewrite map_size_insert_Some.
    + by left.
    + by left.
    + by left.
    + unfold deleteStringHandler.
      case_bool_decide; [by left |].
      destruct (path_decoded r) as [v |]; [| by left].
      case_bool_decide; [by left |].
      destruct (store s !! computeHash v) as [item |] eqn:Hv; [| by left].
      right. right. exists (computeHash v). simpl.
      split_and!; [done | done | by eexists | apply Hdel; by eexists].
  - assert (Hs : run init [PostArrives (create []) (str "a");
                           PostArrives (create []) (str "b"); PostStores 0]
                 = {| store := {[computeHash [] := record_of [] (str "a")]};
                      waiting := [record_of [] (str "b")];
                      answers := [writeJSON StatusCreated
                                    (BItem (record_of [] (str "a")))] |}).
    { rewrite run_cons, exec_arrives_fresh by done.
      rewrite run_cons, exec_arrives_fresh by done.
      rewrite run_cons, (exec_stores _ 0 (record_of [] (str "a"))) by done.
      proj. by rewrite insert_empty. }
    exists (run init [PostArrives (create []) (str "a");
                      PostArrives (create []) (str "b"); PostStores 0]),
      (PostStores 0), (record_of [] (str "b")).
    split; [by eexists |]. rewrite Hs.
    rewrite (exec_stores _ 0 (record_of [] (str "b"))) by done. proj.
    split_and!.
    + done.
    + rewrite insert_singleton_eq. by rewrite !map_size_singleton.
    + rewrite insert_singleton_eq. intros Heq.
      apply (f_equal (λ m, CreatedAt <$> m !! computeHash [])) in Heq.
      rewrite !lookup_singleton_eq in Heq. discriminate Heq.
Qed.

End store_changes.

(** *** What removes a record *)

Section persistence.
Context `{Runtime}.

Lemma exec_keeps_key (s : server) (e : event) (k : list Z) :
  (∀ r v, e = Delete r → path_decoded r = Some v → computeHash v ≠ k) →
  is_Some (store s !! k) → is_Some (store (exec s e) !! k).
Proof.
  intros He Hk. destruct e as [r now | i | r | r | r | r]; simpl.
  - by destruct (post_check (store s) r).
  - destruct (waiting s !! i) as [item |]; [| done]. simpl.
    rewrite lookup_insert_is_Some. destruct (decide (ID item = k)); auto.
  - done.
  - done.
  - done.
  - specialize (He r). unfold deleteStringHandler.
    case_bool_decide; [done |].
    destruct (path_decoded r) as [v |]; [| done].
    case_bool_decide; [done |].
    destruct (store s !! computeHash v); [| done]. simpl.
    rewrite lookup_delete_ne; [done |]. by apply He.
Qed.

(** X25.  A record leaves the map only through a DELETE of a value with
    its hash: along any run of the server in which no DELETE names such a
    value, a key that is in the map stays in it, whatever else is created,
    read or deleted in between. *)
Theorem records_vanish_only_by_delete (s : server) (es : list event) (k : gostring) :
  Forall (λ e, ∀ r v, e = Delete r → path_decoded r = Some v → computeHash v ≠ k) es →
  is_Some (store s !! k) → is_Some (store (run s es) !! k).
Proof.
  intros Hes. revert s. induction Hes as [| e es He _ IH]; intros s Hk; [done |].
  rewrite run_cons. apply IH. by apply exec_keeps_key.
Qed.

End persistence.

(** * Closed instances of the further properties

    Each statement with a hypothesis, applied to a concrete input with
    [sample_runtime]. *)

Section closed_instances.
#[local] Existing Instance sample_runtime.

(** X1 at the value "banana". *)
Lemma charFreqMap_counts_occurrences_witness :
  Z.of_nat (length (str "banana")) ≤ max_int
  ∧ (∀ r, r ∈ str "banana" →
       CharacterFrequencyMap (analyzeString (str "banana")) !! [r]
       = Some (Z.of_nat (length (filter (λ y, y = r) (str "banana"))))
       ∧ (1 ≤ length (filter (λ y, y = r) (str "banana")))%nat)
  ∧ (∀ k, (∀ r, r ∈ str "banana" → k ≠ [r]) →
       CharacterFrequencyMap (analyzeString (str "banana")) !! k = None).
Proof.
  split; [vm_compute; discriminate |].
  apply (charFreqMap_counts_occurrences (str "banana")). vm_compute. discriminate.
Defined.

(** X5 on the empty map, with the value "level". *)
Lemma create_then_get_witness :
  (∅ : gmap (list Z) StoredString) !! computeHash (str "level") = None
  ∧ postStringsHandler ∅ (create (str "level")) (str "t0")
    = (<[computeHash (str "level") := record_of (str "level") (str "t0")]> ∅,
       writeJSON StatusCreated (BItem (record_of (str "level") (str "t0"))))
  ∧ (∀ k, k ≠ computeHash (str "level") →
       (postStringsHandler ∅ (create (str "level")) (str "t0")).1 !! k
       = (∅ : gmap (list Z) StoredString) !! k)
  ∧ (str "level" ≠ [] →
     getStringByValueHandler (postStringsHandler ∅ (create (str "level")) (str "t0")).1
       (get_value (str "level"))
     = writeJSON StatusOK (BItem (record_of (str "level") (str "t0"))))
  ∧ (∀ now',
       postStringsHandler (postStringsHandler ∅ (create (str "level")) (str "t0")).1
         (create (str "level")) now'
       = ((postStringsHandler ∅ (create (str "level")) (str "t0")).1,
          writeJSON StatusConflict (BError "string already exists in the system"))).
Proof.
  split; [reflexivity |].
  apply (create_then_get ∅ (str "level") (str "t0")). reflexivity.
Defined.

(** X6 on the map that holds the record of "level" only. *)
Lemma delete_then_get_witness :
  str "level" ≠ []
  ∧ ({[computeHash (str "level") := record_of (str "level") (str "t0")]}
       : gmap (list Z) StoredString) !! computeHash (str "level")
    = Some (record_of (str "level") (str "t0"))
  ∧ deleteStringHandler
      {[computeHash (str "level") := record_of (str "level") (str "t0")]}
      (delete_value (str "level"))
    = (delete (computeHash (str "level"))
         {[computeHash (str "level") := record_of (str "level") (str "t0")]},
       WriteHeader StatusNoContent).
Proof.
  assert (Hv : str "level" ≠ []) by discriminate.
  assert (Hk : ({[computeHash (str "level") := record_of (str "level") (str "t0")]}
                  : gmap (list Z) StoredString) !! computeHash (str "level")
               = Some (record_of (str "level") (str "t0")))
    by apply lookup_singleton_eq.
  split; [exact Hv |]. split; [exact Hk |].
  exact (proj1 (delete_then_get _ _ _ Hv Hk)).
Defined.

(** X11 at [?is_palindrome=TRUE&min_length=3&word_count=1&contains_character=e]. *)
Lemma read_filter_accepted_witness :
  read_filter {| list_method := GET; get_is_palindrome := str "TRUE";
                 get_min_length := str "3"; get_max_length := [];
                 get_word_count := str "1"; get_contains_character := str "e" |}
  = Ok {| filterIsPalindrome := Some true; minLength := Some 3; maxLength := None;
          wordCountFilter := Some 1; containsCharacter := Some 101 |}
  ∧ (∀ n, Some 3 = Some n → 0 ≤ n ≤ max_int ∧ Atoi (str "3") = Some n).
Proof.
  split; [reflexivity |].
  exact (proj1 (proj2 (proj2 (proj2 (proj2 (proj2
    (read_filter_accepted
       {| list_method := GET; get_is_palindrome := str "TRUE";
          get_min_length := str "3"; get_max_length := [];
          get_word_count := str "1"; get_contains_character := str "e" |}
       {| filterIsPalindrome := Some true; minLength := Some 3; maxLength := None;
          wordCountFilter := Some 1; containsCharacter := Some 101 |}
       eq_refl))))))).
Defined.

(** X16 at the record of "level" and the filter that asks for the letter e. *)
Lemma evaluators_on_reported_filters_witness :
  well_formed (record_of (str "level") (str "t0"))
  ∧ (containsCharacter (contains_filter 101) = None →
     parsed_ok (filtersApplied (contains_filter 101))
       (record_of (str "level") (str "t0"))
     = filter_ok (contains_filter 101) (record_of (str "level") (str "t0")))
  ∧ (filter_ok (contains_filter 101) (record_of (str "level") (str "t0")) = true →
     parsed_ok (filtersApplied (contains_filter 101))
       (record_of (str "level") (str "t0")) = true).
Proof.
  split; [by split |].
  apply (evaluators_on_reported_filters (contains_filter 101)
           (record_of (str "level") (str "t0"))).
  by split.
Defined.

(** X17 at the value "Level" and the letter l. *)
Lemma translated_contains_ascii_witness :
  Forall (λ r, 0 ≤ r < 128) (str "Level") ∧ 97 ≤ 108 ≤ 122
  ∧ (parsed_ok {["contains_character" := DString [108]]}
       (record_of (str "Level") (str "t0")) = true
     ↔ 108 ∈ str "Level" ∨ 108 - 32 ∈ str "Level").
Proof.
  assert (Hs : Forall (λ r, 0 ≤ r < 128) (str "Level")) by compute_done.
  assert (Hc : 97 ≤ 108 ≤ 122) by lia.
  split; [exact Hs |]. split; [exact Hc |].
  exact (translated_contains_ascii (str "Level") (str "t0") 108 Hs Hc).
Defined.

(** X18 at a query with a single-word phrase and the stem "palindrom". *)
Lemma translated_fields_by_rule_witness :
  parseNaturalLanguage (str "all single word palindromic strings")
  = Ok {["word_count" := DInt 1; "is_palindrome" := DBool true]}
  ∧ ({["word_count" := DInt 1; "is_palindrome" := DBool true]}
       : gmap string dynamic) !! "is_palindrome"
    = (if strings_Contains (normalize (str "all single word palindromic strings"))
            (str "palindrom")
       then Some (DBool true) else None).
Proof.
  assert (Hq : parseNaturalLanguage (str "all single word palindromic strings")
               = Ok {["word_count" := DInt 1; "is_palindrome" := DBool true]})
    by (vm_compute; reflexivity).
  split; [exact Hq |].
  exact (proj1 (translated_fields_by_rule _ _ Hq)).
Defined.

(** X19 at the query of the specification. *)
Lemma translated_values_shape_witness :
  parseNaturalLanguage
    (str "strings longer than 5 characters containing the letter r")
  = Ok {["min_length" := DInt 6; "contains_character" := DString (str "r")]}
  ∧ (∀ v, ({["min_length" := DInt 6; "contains_character" := DString (str "r")]}
             : gmap string dynamic) !! "is_palindrome" = Some v → v = DBool true).
Proof.
  assert (Hq : parseNaturalLanguage
                 (str "strings longer than 5 characters containing the letter r")
               = Ok {["min_length" := DInt 6;
                      "contains_character" := DString (str "r")]})
    by (vm_compute; reflexivity).
  split; [exact Hq |].
  exact (proj1 (translated_values_shape _ _ Hq)).
Defined.

(** X8 in the state after one creation of "level". *)
Lemma stored_records_are_analyses_witness :
  reachable (run init [PostArrives (create (str "level")) (str "t0"); PostStores 0])
  ∧ (∀ k item,
       store (run init [PostArrives (create (str "level")) (str "t0"); PostStores 0])
         !! k = Some item →
       ID item = k ∧ ID item = SHA256Hash (Props item)
       ∧ ID item = computeHash (Value item)
       ∧ Props item = analyzeString (Value item)).
Proof.
  assert (Hr : reachable
                 (run init [PostArrives (create (str "level")) (str "t0");
                            PostStores 0])) by (by eexists).
  split; [exact Hr |].
  exact (proj1 (stored_records_are_analyses _ Hr)).
Defined.

(** X22 at "a b" between a no-break space and a blank with a line
    separator. *)
Lemma wordCount_ignores_margin_witness :
  Forall (λ r, unicode_IsSpace r = true) [160]
  ∧ Forall (λ r, unicode_IsSpace r = true) [32; 8232]
  ∧ WordCount (analyzeString ([160] ++ str "a b" ++ [32; 8232]))
    = WordCount (analyzeString (str "a b")).
Proof.
  assert (Hpre : Forall (λ r, unicode_IsSpace r = true) [160])
    by compute_done.
  assert (Hpost : Forall (λ r, unicode_IsSpace r = true) [32; 8232])
    by compute_done.
  split; [exact Hpre |]. split; [exact Hpost |].
  exact (wordCount_ignores_margin [160] (str "a b") [32; 8232] Hpre Hpost).
Defined.

(** X23 with the digests of [sample_runtime], which are the values
    themselves. *)
Lemma computeHash_hex_witness :
  Forall (λ b, 0 ≤ b < 256) (sha256_Sum256 [1; 255])
  ∧ Forall (λ b, 0 ≤ b < 256) (sha256_Sum256 [16])
  ∧ length (computeHash [1; 255]) = (2 * length (sha256_Sum256 [1; 255]%Z))%nat
  ∧ Forall (λ c, 48 ≤ c ≤ 57 ∨ 97 ≤ c ≤ 102) (computeHash [1; 255])
  ∧ (computeHash [1; 255] = computeHash [16]
     ↔ sha256_Sum256 [1; 255] = sha256_Sum256 [16]).
Proof.
  assert (H1 : Forall (λ b, 0 ≤ b < 256) (sha256_Sum256 [1; 255]))
    by compute_done.
  assert (H2 : Forall (λ b, 0 ≤ b < 256) (sha256_Sum256 [16]))
    by compute_done.
  split; [exact H1 |]. split; [exact H2 |].
  exact (computeHash_hex [1; 255] [16] H1 H2).
Defined.

(** X14 in the state after one creation of "level", at [?is_palindrome=true]. *)
Lemma listing_is_the_filtered_store_witness :
  ∃ results,
    getAllStringsHandler
      (store (run init [PostArrives (create (str "level")) (str "t0"); PostStores 0]))
      {| list_method := GET; get_is_palindrome := str "true"; get_min_length := [];
         get_max_length := []; get_word_count := []; get_contains_character := [] |}
    = writeJSON StatusOK
        (BList results (Z.of_nat (length results))
           (filtersApplied
              {| filterIsPalindrome := Some true; minLength := None;
                 maxLength := None; wordCountFilter := None;
                 containsCharacter := None |}))
    ∧ NoDup results
    ∧ (∀ item, item ∈ results
         ↔ store (run init [PostArrives (create (str "level")) (str "t0");
                            PostStores 0]) !! ID item = Some item
           ∧ filter_ok {| filterIsPalindrome := Some true; minLength := None;
                          maxLength := None; wordCountFilter := None;
                          containsCharacter := None |} item = true).
Proof.
  apply (listing_is_the_filtered_store
           (run init [PostArrives (create (str "level")) (str "t0"); PostStores 0])
           {| list_method := GET; get_is_palindrome := str "true";
              get_min_length := []; get_max_length := []; get_word_count := [];
              get_contains_character := [] |}
           {| filterIsPalindrome := Some true; minLength := None; maxLength := None;
              wordCountFilter := None; containsCharacter := None |}).
  - by eexists.
  - reflexivity.
  - reflexivity.
Defined.

(** X15 in the same state, at the query "palindromic strings". *)
Lemma interpreted_listing_is_the_filtered_store_witness :
  ∃ results,
    naturalLanguageHandler
      (store (run init [PostArrives (create (str "level")) (str "t0"); PostStores 0]))
      {| nl_method := GET; nl_query := str "palindromic strings" |}
    = writeJSON StatusOK
        (BInterpreted results (Z.of_nat (length results))
           (str "palindromic strings") {["is_palindrome" := DBool true]})
    ∧ NoDup results
    ∧ (∀ item, item ∈ results
         ↔ store (run init [PostArrives (create (str "level")) (str "t0");
                            PostStores 0]) !! ID item = Some item
           ∧ parsed_ok {["is_palindrome" := DBool true]} item = true).
Proof.
  apply (interpreted_listing_is_the_filtered_store
           (run init [PostArrives (create (str "level")) (str "t0"); PostStores 0])
           {| nl_method := GET; nl_query := str "palindromic strings" |}
           {["is_palindrome" := DBool true]}).
  - by eexists.
  - reflexivity.
  - vm_compute. reflexivity.
Defined.

(** X20 at the query "palindromic strings" and the record of "level". *)
Lemma translated_filter_meaning_witness :
  parseNaturalLanguage (str "palindromic strings")
  = Ok {["is_palindrome" := DBool true]}
  ∧ (parsed_ok {["is_palindrome" := DBool true]} (record_of (str "level") (str "t0"))
     = true
     ↔ (is_Some (({["is_palindrome" := DBool true]} : gmap string dynamic)
                   !! "is_palindrome") →
        IsPalindrome (Props (record_of (str "level") (str "t0"))) = true)
       ∧ (∀ n, ({["is_palindrome" := DBool true]} : gmap string dynamic)
                 !! "word_count" = Some (DInt n) →
            WordCount (Props (record_of (str "level") (str "t0"))) = n)
       ∧ (∀ n, ({["is_palindrome" := DBool true]} : gmap string dynamic)
                 !! "min_length" = Some (DInt n) →
            n ≤ Length (Props (record_of (str "level") (str "t0"))))
       ∧ (∀ c, ({["is_palindrome" := DBool true]} : gmap string dynamic)
                 !! "contains_character" = Some (DString [c]) →
            found_folded
              (CharacterFrequencyMap (Props (record_of (str "level") (str "t0"))))
              [c] = true)).
Proof.
  assert (Hq : parseNaturalLanguage (str "palindromic strings")
               = Ok {["is_palindrome" := DBool true]})
    by (vm_compute; reflexivity).
  split; [exact Hq |].
  exact (translated_filter_meaning _ _ (record_of (str "level") (str "t0")) Hq).
Defined.

(** X25 in the state after one creation of "level": a listing and a DELETE
    of "radar" leave the record of "level" in place. *)
Lemma records_vanish_only_by_delete_witness :
  Forall (λ e, ∀ r v, e = Delete r → path_decoded r = Some v →
                      computeHash v ≠ computeHash (str "level"))
    [GetAll list_all; Delete (delete_value (str "radar"))]
  ∧ is_Some (store (run init [PostArrives (create (str "level")) (str "t0");
                              PostStores 0]) !! computeHash (str "level"))
  ∧ is_Some (store (run (run init [PostArrives (create (str "level")) (str "t0");
                                   PostStores 0])
                      [GetAll list_all; Delete (delete_value (str "radar"))])
             !! computeHash (str "level")).
Proof.
  assert (Hes : Forall (λ e, ∀ r v, e = Delete r → path_decoded r = Some v →
                             computeHash v ≠ computeHash (str "level"))
                  [GetAll list_all; Delete (delete_value (str "radar"))]).
  { apply Forall_cons. split; [intros r v He; discriminate He |].
    apply Forall_cons. split; [| by apply Forall_nil].
    intros r v Hr Hv Heq. injection Hr as <-. injection Hv as <-.
    vm_compute in Heq. discriminate Heq. }
  assert (Hk : is_Some (store (run init [PostArrives (create (str "level")) (str "t0");
                                         PostStores 0])
                        !! computeHash (str "level"))) by (by eexists).
  split; [exact Hes |]. split; [exact Hk |].
  exact (records_vanish_only_by_delete _ _ _ Hes Hk).
Defined.

End closed_instances.
